(** * A 4-bit DAC and ADC: the two converters of [0_Documents/000_DACとADC交換.ipynb]

    The notebook defines two pure Python functions,
    [dac_output(binary_input, V_ref)] and [adc_output(V_in, V_ref)].
    This development embeds them in Rocq and proves the properties the
    specification states about them.

    Modelling choices.
    - A Python [str] is a [string]; one [ascii] stands for one character.
    - A call either returns a value or raises; [result] records which, and
      which exception.
    - Voltages are Python floats, and the two functions are embedded twice.
      [dac_output] and [adc_output] compute on exact rationals ([Q], with
      [Qeq], [==], as equality): the arithmetic the specification speaks of,
      and the arithmetic of the code wherever no operation rounds, as at
      [V_ref = 5.0] with an input on the quantisation grid.
      [B64.dac_output] and [B64.adc_output] compute on binary64, Rocq's
      primitive floats, whose operations are specified by [SpecFloat]: every
      operation rounds to nearest, ties to even, and can underflow to zero
      or overflow to an infinity; NaN and the infinities are values.
      Every statement names the embedding it is about. *)

From Stdlib Require Import ZArith QArith Qround Qabs Qpower Lqa Lia.
From Stdlib Require Import Bool List Ascii String.
From Stdlib Require Import Floats Uint63.
Import ListNotations.

Local Open Scope string_scope.
Local Open Scope Z_scope.
Local Open Scope Q_scope.

(** Decimal float literals are read as Python reads them: the nearest
    double. *)
Set Warnings "-inexact-float".

(** ** Exceptions and results *)

Inductive exn : Type :=
| ValueError (msg : string)
| ZeroDivisionError (msg : string)
| OverflowError (msg : string).

Inductive result (A : Type) : Type :=
| Ok (a : A)
| Raise (e : exn).

Arguments Ok {A} a.
Arguments Raise {A} e.

Definition bind {A B : Type} (r : result A) (k : A -> result B) : result B :=
  match r with
  | Ok a => k a
  | Raise e => Raise e
  end.

Notation "x <- r ;; k" := (bind r (fun x => k))
  (at level 61, r at next level, right associativity).

(** [is_value_error r]: the call raised the invalid-argument kind
    (Python's [ValueError]), whatever its message. *)
Definition is_value_error {A : Type} (r : result A) : Prop :=
  exists msg, r = Raise (ValueError msg).

Definition returns {A : Type} (r : result A) : Prop :=
  exists a, r = Ok a.

(** ** The Python built-ins the two functions call *)

Module Py.

(** [len(s)] *)
Definition len (s : string) : Z := Z.of_nat (String.length s).

(** [set(s).issubset({"0", "1"})]: every character of [s] is one of the
    two. *)
Definition is_01 (c : ascii) : bool :=
  (Ascii.eqb c "0" || Ascii.eqb c "1")%bool.

Definition issubset_01 (s : string) : bool :=
  forallb is_01 (list_ascii_of_string s).

(** [int(c)] for a one-character string: a decimal digit gives its value,
    anything else raises [ValueError]. *)
Definition int (c : ascii) : result Z :=
  let n := Z.of_nat (nat_of_ascii c) in
  if ((48 <=? n) && (n <=? 57))%bool%Z then Ok (n - 48)%Z
  else Raise (ValueError "invalid literal for int() with base 10").

(** [x / y] on floats: raises on a zero divisor. *)
Definition div (x y : Q) : result Q :=
  if Qeq_bool y 0 then Raise (ZeroDivisionError "float division by zero")
  else Ok (x / y).

(** [x > y] *)
Definition gt (x y : Q) : bool :=
  match Qcompare x y with
  | Gt => true
  | _ => false
  end.

(** [sum(xs)]: left to right, from 0. *)
Definition sum (xs : list Q) : Q := fold_left Qplus xs 0.

(** [round(x)] with one argument: the nearest integer, a tie going to the
    even neighbour. *)
Definition round (x : Q) : Z :=
  let f := Qfloor x in
  match Qcompare (x - inject_Z f) (1 # 2) with
  | Lt => f
  | Gt => (f + 1)%Z
  | Eq => if Z.even f then f else (f + 1)%Z
  end.

(** Binary digits of a positive number, most significant first. *)
Fixpoint bin_pos (p : positive) : string :=
  match p with
  | xH => "1"
  | xO q => bin_pos q ++ "0"
  | xI q => bin_pos q ++ "1"
  end.

Definition bin_abs (n : Z) : string :=
  match n with
  | Z0 => "0"
  | Zpos p => bin_pos p
  | Zneg p => bin_pos p
  end.

Fixpoint zeros (k : nat) : string :=
  match k with
  | O => EmptyString
  | S k' => String "0" (zeros k')
  end.

(** Left padding with ['0'] up to [width] characters; a longer string is
    left as it is. *)
Definition zfill (width : nat) (s : string) : string :=
  zeros (width - String.length s) ++ s.

(** [format(n, '04b')]: binary digits, zero-padded to a total width of 4;
    for a negative number the sign comes first and counts in the width. *)
Definition format_04b (n : Z) : string :=
  if (n <? 0)%Z then String "-" (zfill 3 (bin_abs n))
  else zfill 4 (bin_abs n).

End Py.

(** ** The two converters on exact rationals *)

(** [for bit, weight in zip(binary_input, weights)]: the generator's terms
    [int(bit) * weight * V_ref], in order; the first [int] that raises ends
    the iteration. *)
Fixpoint dac_terms (pairs : list (ascii * Q)) (V_ref : Q) : result (list Q) :=
  match pairs with
  | [] => Ok []
  | (bit, weight) :: rest =>
      b <- Py.int bit ;;
      ts <- dac_terms rest V_ref ;;
      Ok (inject_Z b * weight * V_ref :: ts)
  end.

Definition dac_output (binary_input : string) (V_ref : Q) : result Q :=
  if (negb (Py.len binary_input =? 4)%Z
      || negb (Py.issubset_01 binary_input))%bool
  then Raise (ValueError "binary_input must be a 4-bit binary string.")
  else
    let weights := [8 / 16; 4 / 16; 2 / 16; 1 / 16] in
    ts <- dac_terms (combine (list_ascii_of_string binary_input) weights) V_ref ;;
    let V_out := Py.sum ts in
    Ok V_out.

Definition adc_output (V_in V_ref : Q) : result string :=
  if Py.gt V_in V_ref
  then Raise (ValueError "Input voltage exceeds reference voltage.")
  else
    let quantization_levels := (2 ^ 4)%Z in
    delta_V <- Py.div V_ref (inject_Z quantization_levels) ;;
    q <- Py.div V_in delta_V ;;
    let digital_value := Py.round q in
    let binary_output := Py.format_04b digital_value in
    Ok binary_output.

(** ** The notions the specification uses *)

(** A valid 4-bit code: four characters, each ['0'] or ['1']. *)
Definition valid_code (b : string) : Prop :=
  String.length b = 4%nat /\
  Forall (fun c => c = "0"%char \/ c = "1"%char) (list_ascii_of_string b).

(** The value of one binary digit. *)
Definition bit_value (c : ascii) : Z :=
  if Ascii.eqb c "1" then 1 else 0.

(** The unsigned integer a binary string denotes, most significant bit
    first. *)
Definition code_value (b : string) : Z :=
  fold_left (fun acc c => (2 * acc + bit_value c)%Z) (list_ascii_of_string b) 0%Z.

(** Bit [i] of a code, counted from the most significant one (index 0). *)
Definition bit_at (b : string) (i : nat) : Z :=
  match String.get i b with
  | Some c => bit_value c
  | None => 0%Z
  end.

(** Rounding to the nearest integer, ties to even, as a relation: [n] is
    within one half of [x], and when it is exactly one half away it is
    even. *)
Definition round_half_even (x : Q) (n : Z) : Prop :=
  Qabs (x - inject_Z n) <= 1 # 2 /\
  (Qabs (x - inject_Z n) == 1 # 2 -> Z.even n = true).

(** ** Binary64 values

    What the statements about the binary64 converters need: the rational
    number a float stands for, and the vocabulary of the rounding proofs. *)

Definition pow2 (e : Z) : Q := Qpower 2 e.

(** The rational number a finite float stands for; 0 for the others. *)
Definition B2Q (x : spec_float) : Q :=
  match x with
  | S754_finite s m e =>
      (if s then - inject_Z (Z.pos m) else inject_Z (Z.pos m)) * pow2 e
  | _ => 0
  end.

Definition to_Q (x : float) : Q := B2Q (Prim2SF x).

Abbreviation fexp64 := (SpecFloat.fexp prec emax).

(** The unit roundoff bound used throughout: 2^-52. *)
Definition eps : Q := pow2 (-52).

(** A positive finite binary64 number. *)
Definition pos_finite (x : spec_float) : Prop :=
  exists m e, x = S754_finite false m e /\ bounded prec emax m e = true.

(** Nothing was shifted out so far. *)
Definition shr_exact (r : shr_record) : bool := negb (shr_r r || shr_s r).

Definition loc_is_exact (l : location) : bool :=
  match l with loc_Exact => true | _ => false end.

(** [approx eta x X]: the float [x] stands for the non-negative real [X]
    up to the relative error [eta]: either both are zero, or [x] is a
    positive normal number within [eta * X] of [X]. *)
Definition approx (eta : Q) (x : float) (X : Q) : Prop :=
  (X == 0 /\ Prim2SF x = S754_zero false) \/
  (pos_finite (Prim2SF x) /\ pow2 (-1022) <= to_Q x /\
   X * (1 - eta) <= to_Q x <= X * (1 + eta)).

(** ** The two converters on binary64

    The same code once more, with Python's [float] as Rocq's primitive
    binary64 float: every product, sum and quotient is rounded to nearest
    (ties to even) as the hardware does it, and can underflow to zero or
    overflow to infinity.  A Python [int] that meets a float ([int(bit)],
    [quantization_levels]) is converted first; [sum] adds from left to
    right, as in the Python 3.8 the notebook ran on. *)

Module B64.

(** [float(n)] for a Python int of magnitude below 2^63. *)
Definition of_int (n : Z) : float :=
  if (n <? 0)%Z then PrimFloat.opp (PrimFloat.of_uint63 (Uint63.of_Z (- n)))
  else PrimFloat.of_uint63 (Uint63.of_Z n).

(** [x / y]: raises on a zero divisor, of either sign. *)
Definition div (x y : float) : result float :=
  if PrimFloat.eqb y (of_int 0)
  then Raise (ZeroDivisionError "float division by zero")
  else Ok (PrimFloat.div x y).

(** [x > y]; false when either is NaN. *)
Definition gt (x y : float) : bool := PrimFloat.ltb y x.

(** [sum(xs)]: left to right, from the int 0. *)
Definition sum (xs : list float) : float :=
  fold_left PrimFloat.add xs (of_int 0).

(** [round(x)] with one argument: the float's exact value rounded to the
    nearest integer, ties to even; NaN and the infinities raise. *)
Definition round (x : float) : result Z :=
  match Prim2SF x with
  | S754_nan => Raise (ValueError "cannot convert float NaN to integer")
  | S754_infinity _ =>
      Raise (OverflowError "cannot convert float infinity to integer")
  | _ => Ok (Py.round (to_Q x))
  end.

Fixpoint dac_terms (pairs : list (ascii * float)) (V_ref : float)
  : result (list float) :=
  match pairs with
  | [] => Ok []
  | (bit, weight) :: rest =>
      b <- Py.int bit ;;
      ts <- dac_terms rest V_ref ;;
      Ok (PrimFloat.mul (PrimFloat.mul (of_int b) weight) V_ref :: ts)
  end.

Definition dac_output (binary_input : string) (V_ref : float) : result float :=
  if (negb (Py.len binary_input =? 4)%Z
      || negb (Py.issubset_01 binary_input))%bool
  then Raise (ValueError "binary_input must be a 4-bit binary string.")
  else
    let weights := [PrimFloat.div (of_int 8) (of_int 16);
                    PrimFloat.div (of_int 4) (of_int 16);
                    PrimFloat.div (of_int 2) (of_int 16);
                    PrimFloat.div (of_int 1) (of_int 16)] in
    ts <- dac_terms (combine (list_ascii_of_string binary_input) weights) V_ref ;;
    let V_out := sum ts in
    Ok V_out.

Definition adc_output (V_in V_ref : float) : result string :=
  if gt V_in V_ref
  then Raise (ValueError "Input voltage exceeds reference voltage.")
  else
    let quantization_levels := (2 ^ 4)%Z in
    delta_V <- div V_ref (of_int quantization_levels) ;;
    q <- div V_in delta_V ;;
    digital_value <- round q ;;
    let binary_output := Py.format_04b digital_value in
    Ok binary_output.

End B64.

(** ** The notebook's demonstration runs, on exact rationals *)

Example dac_1010 : exists v, dac_output "1010" 5 = Ok v /\ v == 3125 # 1000.
Proof. eexists; split; [reflexivity | reflexivity]. Qed.

Example dac_0101 : exists v, dac_output "0101" 5 = Ok v /\ v == 15625 # 10000.
Proof. eexists; split; [reflexivity | reflexivity]. Qed.

Example dac_1111 : exists v, dac_output "1111" 5 = Ok v /\ v == 46875 # 10000.
Proof. eexists; split; [reflexivity | reflexivity]. Qed.

Example dac_0000 : exists v, dac_output "0000" 5 = Ok v /\ v == 0.
Proof. eexists; split; [reflexivity | reflexivity]. Qed.

Example adc_3_12 : adc_output (312 # 100) 5 = Ok "1010".
Proof. reflexivity. Qed.

Example adc_1_56 : adc_output (156 # 100) 5 = Ok "0101".
Proof. reflexivity. Qed.

Example adc_4_69 : adc_output (469 # 100) 5 = Ok "1111".
Proof. reflexivity. Qed.

Example adc_0_00 : adc_output 0 5 = Ok "0000".
Proof. reflexivity. Qed.

Example dac_too_short : is_value_error (dac_output "101" 5).
Proof. eexists; reflexivity. Qed.

Example dac_bad_character : is_value_error (dac_output "10a1" 5).
Proof. eexists; reflexivity. Qed.

Example adc_above_reference : is_value_error (adc_output (5 + (1 # 100)) 5).
Proof. eexists; reflexivity. Qed.

(** ** Results never confuse returning and raising *)

Lemma returns_not_value_error {A : Type} (r : result A) :
  returns r -> ~ is_value_error r.
Proof. intros [a Ha] [msg Hm]; congruence. Qed.

(** ** Valid codes *)

Lemma is_01_true (c : ascii) :
  Py.is_01 c = true <-> c = "0"%char \/ c = "1"%char.
Proof.
  unfold Py.is_01. rewrite orb_true_iff, !Ascii.eqb_eq. tauto.
Qed.

Lemma issubset_01_true (s : string) :
  Py.issubset_01 s = true <->
  Forall (fun c => c = "0"%char \/ c = "1"%char) (list_ascii_of_string s).
Proof.
  unfold Py.issubset_01. rewrite forallb_forall, Forall_forall.
  split; intros H c Hc; apply is_01_true, H, Hc.
Qed.

Lemma len_is_4 (s : string) :
  (Py.len s =? 4)%Z = true <-> String.length s = 4%nat.
Proof. unfold Py.len. rewrite Z.eqb_eq. lia. Qed.

(** The guard of [dac_output] lets exactly the valid codes through. *)
Lemma dac_guard_false (b : string) :
  (negb (Py.len b =? 4)%Z || negb (Py.issubset_01 b))%bool = false <->
  valid_code b.
Proof.
  unfold valid_code.
  rewrite orb_false_iff, !negb_false_iff, len_is_4, issubset_01_true.
  tauto.
Qed.

Lemma valid_code_inv (b : string) :
  valid_code b ->
  exists c3 c2 c1 c0,
    b = String c3 (String c2 (String c1 (String c0 EmptyString))) /\
    (c3 = "0" \/ c3 = "1")%char /\ (c2 = "0" \/ c2 = "1")%char /\
    (c1 = "0" \/ c1 = "1")%char /\ (c0 = "0" \/ c0 = "1")%char.
Proof.
  intros [Hlen Hall].
  destruct b as [|c3 [|c2 [|c1 [|c0 [|c r]]]]]; simpl in Hlen; try discriminate.
  exists c3, c2, c1, c0. split; [reflexivity|].
  simpl in Hall.
  inversion_clear Hall as [|? ? H3 Hall3].
  inversion_clear Hall3 as [|? ? H2 Hall2].
  inversion_clear Hall2 as [|? ? H1 Hall1].
  inversion_clear Hall1 as [|? ? H0 _].
  tauto.
Qed.

(** A concrete string is a valid code. *)
Ltac valid_code_tac :=
  split; [reflexivity | repeat (apply Forall_cons; [auto|]); apply Forall_nil].

(** A valid code, taken apart into its sixteen instances. *)
Ltac code_cases H :=
  let c3 := fresh "c3" in let c2 := fresh "c2" in
  let c1 := fresh "c1" in let c0 := fresh "c0" in
  let E := fresh "E" in
  destruct (valid_code_inv _ H)
    as (c3 & c2 & c1 & c0 & E & [?|?] & [?|?] & [?|?] & [?|?]);
  subst.

(** ** Rounding *)

Lemma round_compat (x y : Q) : x == y -> Py.round x = Py.round y.
Proof.
  intros E. unfold Py.round.
  rewrite (Qfloor_comp x y E).
  assert (E' : x - inject_Z (Qfloor y) == y - inject_Z (Qfloor y))
    by (rewrite E; reflexivity).
  rewrite (Qcompare_comp _ _ E' (1 # 2) (1 # 2) (Qeq_refl _)).
  reflexivity.
Qed.

Lemma round_inject_Z (k : Z) : Py.round (inject_Z k) = k.
Proof.
  unfold Py.round. rewrite Qfloor_Z.
  assert (L : Qcompare (inject_Z k - inject_Z k) (1 # 2) = Lt)
    by (apply (proj1 (Qlt_alt _ _)); lra).
  rewrite L. reflexivity.
Qed.

Lemma Qabs_within (y h : Q) : - h <= y <= h -> Qabs y <= h.
Proof. intros [L U]. apply Qabs_case; intros; lra. Qed.

Lemma Qabs_bounds (y h : Q) : Qabs y <= h -> - h <= y <= h.
Proof. apply Qabs_Qle_condition. Qed.

Lemma Qabs_strictly_within (y h : Q) : - h < y < h -> ~ Qabs y == h.
Proof. intros [L U]. apply Qabs_case; intros; lra. Qed.

Lemma Qabs_half_cases (y : Q) :
  Qabs y == 1 # 2 -> y == 1 # 2 \/ y == - (1 # 2).
Proof.
  apply Qabs_case; intros H E; [left; exact E | right; lra].
Qed.

(** [Py.round] computes the nearest integer, ties to even. *)
Lemma round_is_half_even (x : Q) : round_half_even x (Py.round x).
Proof.
  unfold round_half_even, Py.round.
  pose proof (Qfloor_le x) as Lo.
  pose proof (Qlt_floor x) as Hi.
  rewrite inject_Z_plus in Hi. change (inject_Z 1) with 1 in Hi.
  set (f := Qfloor x) in *.
  destruct (Qcompare (x - inject_Z f) (1 # 2)) eqn:C.
  - apply (proj2 (Qeq_alt _ _)) in C.
    destruct (Z.even f) eqn:Ev.
    + split; [apply Qabs_within; lra | intros _; exact Ev].
    + split.
      * rewrite inject_Z_plus. change (inject_Z 1) with 1.
        apply Qabs_within; lra.
      * intros _. rewrite Z.even_add, Ev. reflexivity.
  - apply (proj2 (Qlt_alt _ _)) in C.
    split; [apply Qabs_within; lra|].
    intros T. exfalso. revert T. apply Qabs_strictly_within. lra.
  - apply (proj2 (Qgt_alt _ _)) in C.
    rewrite inject_Z_plus. change (inject_Z 1) with 1.
    split; [apply Qabs_within; lra|].
    intros T. exfalso. revert T. apply Qabs_strictly_within. lra.
Qed.

(** The relation determines the integer. *)
Lemma round_half_even_unique (x : Q) (n m : Z) :
  round_half_even x n -> round_half_even x m -> n = m.
Proof.
  intros [Bn En] [Bm Em].
  apply Qabs_bounds in Bn, Bm.
  assert (Hnm : (n <= m + 1)%Z).
  { rewrite Zle_Qle, inject_Z_plus. change (inject_Z 1) with 1. lra. }
  assert (Hmn : (m <= n + 1)%Z).
  { rewrite Zle_Qle, inject_Z_plus. change (inject_Z 1) with 1. lra. }
  destruct (Z.eq_dec n m) as [|Hne]; [assumption|exfalso].
  assert (Hcase : (n = m + 1 \/ m = n + 1)%Z) by lia.
  destruct Hcase as [-> | ->].
  - rewrite inject_Z_plus in Bn, En. change (inject_Z 1) with 1 in Bn, En.
    assert (Hx : x - inject_Z m == 1 # 2) by lra.
    assert (E1 : Z.even m = true).
    { apply Em. rewrite Hx. reflexivity. }
    assert (E2 : Z.even (m + 1) = true).
    { apply En.
      assert (Hy : x - (inject_Z m + 1) == - (1 # 2)) by lra.
      rewrite Hy. reflexivity. }
    rewrite Z.even_add, E1 in E2. discriminate.
  - rewrite inject_Z_plus in Bm, Em. change (inject_Z 1) with 1 in Bm, Em.
    assert (Hx : x - inject_Z n == 1 # 2) by lra.
    assert (E1 : Z.even n = true).
    { apply En. rewrite Hx. reflexivity. }
    assert (E2 : Z.even (n + 1) = true).
    { apply Em.
      assert (Hy : x - (inject_Z n + 1) == - (1 # 2)) by lra.
      rewrite Hy. reflexivity. }
    rewrite Z.even_add, E1 in E2. discriminate.
Qed.

(** ** The DAC on valid codes *)

Lemma dac_output_bits (c3 c2 c1 c0 : ascii) (V : Q) :
  (c3 = "0" \/ c3 = "1")%char -> (c2 = "0" \/ c2 = "1")%char ->
  (c1 = "0" \/ c1 = "1")%char -> (c0 = "0" \/ c0 = "1")%char ->
  dac_output (String c3 (String c2 (String c1 (String c0 EmptyString)))) V =
  Ok (0 + inject_Z (bit_value c3) * (8 / 16) * V
        + inject_Z (bit_value c2) * (4 / 16) * V
        + inject_Z (bit_value c1) * (2 / 16) * V
        + inject_Z (bit_value c0) * (1 / 16) * V).
Proof.
  intros [->| ->] [->| ->] [->| ->] [->| ->]; reflexivity.
Qed.

Lemma code_value_bits (c3 c2 c1 c0 : ascii) :
  code_value (String c3 (String c2 (String c1 (String c0 EmptyString)))) =
  (8 * bit_value c3 + 4 * bit_value c2 + 2 * bit_value c1 + bit_value c0)%Z.
Proof.
  unfold code_value. cbn [list_ascii_of_string fold_left]. lia.
Qed.

Lemma bit_value_range (c : ascii) : (0 <= bit_value c <= 1)%Z.
Proof. unfold bit_value. destruct (Ascii.eqb c "1"); lia. Qed.

Lemma code_value_range (b : string) :
  valid_code b -> (0 <= code_value b <= 15)%Z.
Proof.
  intros H. destruct (valid_code_inv b H) as (c3 & c2 & c1 & c0 & -> & _).
  rewrite code_value_bits.
  pose proof (bit_value_range c3). pose proof (bit_value_range c2).
  pose proof (bit_value_range c1). pose proof (bit_value_range c0).
  lia.
Qed.

(** The DAC returns the reference voltage scaled by the code's value over
    sixteen. *)
Lemma dac_output_value (b : string) (V : Q) :
  valid_code b ->
  exists v, dac_output b V = Ok v /\ v == V * inject_Z (code_value b) / 16.
Proof.
  intros H.
  destruct (valid_code_inv b H) as (c3 & c2 & c1 & c0 & -> & H3 & H2 & H1 & H0).
  eexists. split; [apply dac_output_bits; assumption|].
  rewrite code_value_bits.
  rewrite !inject_Z_plus, !inject_Z_mult.
  change (inject_Z 8) with 8. change (inject_Z 4) with 4.
  change (inject_Z 2) with 2.
  field.
Qed.

(** ** The ADC's guard and its arithmetic *)

Lemma gt_true (x y : Q) : Py.gt x y = true <-> y < x.
Proof.
  unfold Py.gt. destruct (Qcompare x y) eqn:C.
  - apply (proj2 (Qeq_alt _ _)) in C. split; [discriminate | lra].
  - apply (proj2 (Qlt_alt _ _)) in C. split; [discriminate | lra].
  - apply (proj2 (Qgt_alt _ _)) in C. split; [intros _; exact C | reflexivity].
Qed.

Lemma gt_false (x y : Q) : Py.gt x y = false <-> x <= y.
Proof.
  destruct (Py.gt x y) eqn:G.
  - apply gt_true in G. split; [discriminate | lra].
  - split; [intros _ | reflexivity].
    destruct (Qlt_le_dec y x) as [L|L]; [|exact L].
    apply gt_true in L. congruence.
Qed.

Lemma div_nonzero (x y : Q) : ~ y == 0 -> Py.div x y = Ok (x / y).
Proof.
  intros N. unfold Py.div.
  destruct (Qeq_bool y 0) eqn:E; [|reflexivity].
  apply Qeq_bool_iff in E. contradiction.
Qed.

Lemma div_zero (x y : Q) :
  y == 0 -> Py.div x y = Raise (ZeroDivisionError "float division by zero").
Proof.
  intros Z. unfold Py.div.
  apply Qeq_bool_iff in Z. rewrite Z. reflexivity.
Qed.

Lemma step_nonzero (V_ref : Q) : ~ V_ref == 0 -> ~ V_ref / 16 == 0.
Proof.
  intros N E. apply N.
  assert (H : V_ref == V_ref / 16 * 16) by (field; discriminate).
  rewrite H, E. reflexivity.
Qed.

(** Below or at the reference, and with a non-zero reference, the ADC
    returns the formatted rounded quotient. *)
Lemma adc_output_eq (V_in V_ref : Q) :
  V_in <= V_ref -> ~ V_ref == 0 ->
  adc_output V_in V_ref =
  Ok (Py.format_04b (Py.round (V_in / (V_ref / 16)))).
Proof.
  intros Le N. unfold adc_output.
  apply gt_false in Le. rewrite Le.
  change (inject_Z (2 ^ 4)) with 16.
  rewrite (div_nonzero V_ref 16) by discriminate.
  cbn [bind].
  rewrite (div_nonzero V_in (V_ref / 16)) by (apply step_nonzero; exact N).
  reflexivity.
Qed.

(** With a zero reference the quotient by the step is a division by zero. *)
Lemma adc_output_zero_reference (V_in V_ref : Q) :
  V_in <= V_ref -> V_ref == 0 ->
  adc_output V_in V_ref = Raise (ZeroDivisionError "float division by zero").
Proof.
  intros Le Z. unfold adc_output.
  apply gt_false in Le. rewrite Le.
  change (inject_Z (2 ^ 4)) with 16.
  rewrite (div_nonzero V_ref 16) by discriminate.
  cbn [bind].
  rewrite (div_zero V_in (V_ref / 16)) by (rewrite Z; reflexivity).
  reflexivity.
Qed.

(** Formatting inverts [code_value] on valid codes. *)
Lemma format_code_value (b : string) :
  valid_code b -> Py.format_04b (code_value b) = b.
Proof. intros H. code_cases H; reflexivity. Qed.

Lemma forallb_false_witness {A : Type} (f : A -> bool) (l : list A) :
  forallb f l = false -> exists x, In x l /\ f x = false.
Proof.
  induction l as [|a l IH]; simpl; [discriminate|].
  destruct (f a) eqn:Fa; simpl.
  - intros H. destruct (IH H) as (x & Hin & Hx). exists x. auto.
  - intros _. exists a. auto.
Qed.

Lemma is_01_false (c : ascii) :
  Py.is_01 c = false <-> c <> "0"%char /\ c <> "1"%char.
Proof.
  unfold Py.is_01. rewrite orb_false_iff, !Ascii.eqb_neq. tauto.
Qed.

Example adc_negative_input : adc_output (-1) 5 = Ok "-011".
Proof. reflexivity. Qed.

Example adc_tie_0_5 : adc_output (5 # 32) 5 = Ok "0000".
Proof. reflexivity. Qed.

Example adc_tie_1_5 : adc_output (15 # 32) 5 = Ok "0010".
Proof. reflexivity. Qed.

Example adc_tie_2_5 : adc_output (25 # 32) 5 = Ok "0010".
Proof. reflexivity. Qed.

Example adc_tie_3_5 : adc_output (35 # 32) 5 = Ok "0100".
Proof. reflexivity. Qed.

(** ** The specification's claims, on exact rationals *)

(** C1.  The specification says [adc_output(V_ref, V_ref)] is "1111".  The
    code does not clamp the rounded quotient: at [V_in = V_ref = 5] the
    quotient is 16 and the function returns the five-character string
    "10000". *)
Theorem adc_output_full_scale_at_5 :
  adc_output 5 5 = Ok "10000" /\ "10000" <> "1111".
Proof. split; [reflexivity | discriminate]. Qed.

(** C2.  The specification says every code returned for [V_in <= V_ref] has
    length 4 over the characters 0 and 1.  At [V_in = V_ref = 5] the code
    returns a string of length 5, which is not a valid 4-bit code. *)
Theorem adc_output_overlong_at_5 :
  exists s, adc_output 5 5 = Ok s /\ String.length s = 5%nat /\ ~ valid_code s.
Proof.
  exists "10000". split; [reflexivity|]. split; [reflexivity|].
  intros [L _]. discriminate L.
Qed.

(** C5.  [dac_output] raises the invalid-argument error exactly when the
    input's length is not 4 or it holds a character other than 0 and 1; on a
    valid code it returns a value; and it never ends any other way. *)
Theorem dac_output_raises_iff (b : string) (V : Q) :
  (is_value_error (dac_output b V) <->
   String.length b <> 4%nat \/
   exists c, In c (list_ascii_of_string b) /\ c <> "0"%char /\ c <> "1"%char) /\
  (valid_code b -> returns (dac_output b V)) /\
  (returns (dac_output b V) \/ is_value_error (dac_output b V)).
Proof.
  assert (Hret : valid_code b -> returns (dac_output b V)).
  { intros Hb. destruct (dac_output_value b V Hb) as (v & Hv & _).
    exists v. exact Hv. }
  destruct (negb (Py.len b =? 4)%Z || negb (Py.issubset_01 b))%bool eqn:G.
  - assert (Herr : is_value_error (dac_output b V)).
    { unfold dac_output. rewrite G. eexists. reflexivity. }
    split; [|split; [exact Hret | right; exact Herr]].
    split; [intros _ | intros _; exact Herr].
    apply orb_true_iff in G. destruct G as [G|G]; apply negb_true_iff in G.
    + left. intros L. apply len_is_4 in L. congruence.
    + right. destruct (forallb_false_witness _ _ G) as (c & Hin & Hc).
      exists c. split; [exact Hin | apply is_01_false; exact Hc].
  - apply dac_guard_false in G.
    split; [|split; [exact Hret | left; exact (Hret G)]].
    split.
    + intros E. exfalso. exact (returns_not_value_error _ (Hret G) E).
    + destruct G as [L A]. intros [N | (c & Hin & N0 & N1)]; [contradiction|].
      rewrite Forall_forall in A. destruct (A c Hin); contradiction.
Qed.

Lemma dac_output_raises_iff_witness :
  valid_code "0101" /\ returns (dac_output "0101" 5) /\
  is_value_error (dac_output "101" 5) /\
  is_value_error (dac_output "10a1" 5).
Proof.
  assert (Hb : valid_code "0101") by valid_code_tac.
  split; [exact Hb|]. split.
  - exact (proj1 (proj2 (dac_output_raises_iff "0101" 5)) Hb).
  - split.
    + apply (proj2 (proj1 (dac_output_raises_iff "101" 5))).
      left. discriminate.
    + apply (proj2 (proj1 (dac_output_raises_iff "10a1" 5))).
      right. exists "a"%char. cbn. repeat split; (auto || discriminate).
Defined.





(** ** Further properties, on exact rationals *)

(** *** More on rounding *)

(** Strictly within one half of an integer, that integer is the result. *)
Lemma round_near (x : Q) (k : Z) :
  Qabs (x - inject_Z k) < 1 # 2 -> Py.round x = k.
Proof.
  intros H.
  apply (round_half_even_unique x); [apply round_is_half_even|].
  split; [apply Qlt_le_weak; exact H|].
  intros E. rewrite E in H. discriminate H.
Qed.

(** *** More on formatting *)

Lemma length_append (s t : string) :
  String.length (s ++ t) = (String.length s + String.length t)%nat.
Proof. induction s as [|c s IH]; simpl; [reflexivity | rewrite IH; reflexivity]. Qed.

(** *** The length of the ADC's result *)

Lemma adc_output_above (V_in V_ref : Q) :
  V_ref < V_in ->
  adc_output V_in V_ref =
  Raise (ValueError "Input voltage exceeds reference voltage.").
Proof.
  intros H. unfold adc_output.
  apply gt_true in H. rewrite H. reflexivity.
Qed.

Lemma zeros_length (k : nat) : String.length (Py.zeros k) = k.
Proof. induction k as [|k IH]; simpl; [reflexivity | rewrite IH; reflexivity]. Qed.

Lemma zfill_length (w : nat) (s : string) :
  (w <= String.length (Py.zfill w s))%nat.
Proof. unfold Py.zfill. rewrite length_append, zeros_length. lia. Qed.

Lemma format_04b_length (n : Z) : (4 <= String.length (Py.format_04b n))%nat.
Proof.
  unfold Py.format_04b. destruct (n <? 0)%Z.
  - pose proof (zfill_length 3 (Py.bin_abs n)). simpl. lia.
  - apply zfill_length.
Qed.

(** X13.  Whatever the inputs, a string returned by [adc_output] has at
    least four characters. *)
Theorem adc_output_length (V_in V_ref : Q) (s : string) :
  adc_output V_in V_ref = Ok s -> (4 <= String.length s)%nat.
Proof.
  intros H.
  destruct (Qlt_le_dec V_ref V_in) as [Above|Le].
  - rewrite (adc_output_above V_in V_ref Above) in H. discriminate.
  - destruct (Qeq_dec V_ref 0) as [Z|N].
    + rewrite (adc_output_zero_reference V_in V_ref Le Z) in H. discriminate.
    + rewrite (adc_output_eq V_in V_ref Le N) in H.
      injection H as <-. apply format_04b_length.
Qed.

Lemma adc_output_length_witness :
  adc_output (-40) 5 = Ok "-10000000" /\ (4 <= String.length "-10000000")%nat.
Proof.
  assert (H : adc_output (-40) 5 = Ok "-10000000") by reflexivity.
  split; [exact H | exact (adc_output_length (-40) 5 _ H)].
Defined.

(** * Binary64 rounding

    The facts about Rocq's specification of binary64 arithmetic
    ([SpecFloat]) that the statements on the binary64 converters rest on. *)

(** ** Digits and shifts *)

Local Open Scope Z_scope.


(** digits *)
Lemma digits2_pos_bounds (m : positive) :
  2 ^ (Z.pos (digits2_pos m) - 1) <= Z.pos m < 2 ^ Z.pos (digits2_pos m).
Proof.
  induction m as [m IH|m IH|]; cbn [digits2_pos].
  - rewrite Pos2Z.inj_succ.
    replace (Z.succ (Z.pos (digits2_pos m)) - 1) with (Z.succ (Z.pos (digits2_pos m) - 1)) by lia.
    rewrite !Z.pow_succ_r by lia. lia.
  - rewrite Pos2Z.inj_succ.
    replace (Z.succ (Z.pos (digits2_pos m)) - 1) with (Z.succ (Z.pos (digits2_pos m) - 1)) by lia.
    rewrite !Z.pow_succ_r by lia. lia.
  - simpl. lia.
Qed.

Lemma Zdigits2_bounds (z : Z) :
  0 < z -> 2 ^ (Zdigits2 z - 1) <= z < 2 ^ Zdigits2 z.
Proof.
  destruct z as [|m|m]; try lia. intros _. apply digits2_pos_bounds.
Qed.

Lemma Zdigits2_pos (z : Z) : 0 < z -> 0 < Zdigits2 z.
Proof. destruct z; simpl; lia. Qed.

Lemma Zdigits2_unique (z d : Z) :
  2 ^ (d - 1) <= z < 2 ^ d -> 0 < z -> Zdigits2 z = d.
Proof.
  intros [L U] Pz.
  pose proof (Zdigits2_bounds z Pz) as [L' U'].
  pose proof (Zdigits2_pos z Pz) as Pd.
  assert (0 < d).
  { destruct (Z_lt_le_dec 0 d) as [|N]; [assumption|].
    exfalso. assert (2 ^ d <= 1).
    { destruct (Z.eq_dec d 0) as [->|]; [simpl; lia|].
      rewrite Z.pow_neg_r by lia. lia. }
    lia. }
  destruct (Z_lt_le_dec (Zdigits2 z) d) as [A|A].
  - assert (2 ^ Zdigits2 z <= 2 ^ (d - 1)) by (apply Z.pow_le_mono_r; lia). lia.
  - destruct (Z_lt_le_dec d (Zdigits2 z)) as [B|B]; [|lia].
    assert (2 ^ d <= 2 ^ (Zdigits2 z - 1)) by (apply Z.pow_le_mono_r; lia). lia.
Qed.

(** iter_pos *)
Lemma iter_pos_nat {A} (f : A -> A) (p : positive) (x : A) :
  iter_pos f p x = Nat.iter (Pos.to_nat p) f x.
Proof.
  revert x. induction p as [p IH|p IH|]; intros x; cbn [iter_pos].
  - rewrite !IH, Pos2Nat.inj_xI.
    replace (S (2 * Pos.to_nat p)) with (Pos.to_nat p + (Pos.to_nat p + 1))%nat by lia.
    rewrite !Nat.iter_add. reflexivity.
  - rewrite !IH, Pos2Nat.inj_xO.
    replace (2 * Pos.to_nat p)%nat with (Pos.to_nat p + Pos.to_nat p)%nat by lia.
    rewrite Nat.iter_add. reflexivity.
  - reflexivity.
Qed.

Lemma loc_exact (r : shr_record) :
  loc_of_shr_record r = loc_Exact <-> shr_exact r = true.
Proof. destruct r as [m [|] [|]]; unfold shr_exact; simpl; split; congruence. Qed.

Lemma shr_1_spec (r : shr_record) :
  0 <= shr_m r ->
  shr_m (shr_1 r) = shr_m r / 2 /\
  shr_exact (shr_1 r) = (shr_exact r && Z.even (shr_m r))%bool.
Proof.
  destruct r as [m b s]. unfold shr_exact. cbn [shr_m shr_r shr_s].
  intros Hm. destruct m as [|[p|p|]|p]; try lia; cbn [shr_1 shr_m shr_r shr_s].
  - split; [reflexivity|]. destruct b, s; reflexivity.
  - split; [rewrite Pos2Z.inj_xI; apply Z.div_unique with 1; lia|].
    destruct b, s; reflexivity.
  - split; [rewrite Pos2Z.inj_xO; apply Z.div_unique with 0; lia|].
    destruct b, s; reflexivity.
  - split; [reflexivity|]. destruct b, s; reflexivity.
Qed.

Lemma shr_iter_spec (n : nat) (r : shr_record) :
  0 <= shr_m r ->
  shr_m (Nat.iter n shr_1 r) = shr_m r / 2 ^ Z.of_nat n /\
  shr_exact (Nat.iter n shr_1 r) = (shr_exact r && (shr_m r mod 2 ^ Z.of_nat n =? 0))%bool.
Proof.
  intros Hm. induction n as [|n [IHm IHe]].
  - simpl. rewrite Z.div_1_r, Z.mod_1_r, andb_true_r. auto.
  - change (Nat.iter (S n) shr_1 r) with (shr_1 (Nat.iter n shr_1 r)).
    assert (H0 : 0 <= shr_m (Nat.iter n shr_1 r)).
    { rewrite IHm. apply Z.div_pos; [lia|]. apply Z.pow_pos_nonneg; lia. }
    destruct (shr_1_spec _ H0) as [Sm Se].
    assert (P : 0 < 2 ^ Z.of_nat n) by (apply Z.pow_pos_nonneg; lia).
    rewrite Nat2Z.inj_succ, Z.pow_succ_r by lia.
    split.
    + rewrite Sm, IHm, Z.div_div by lia. f_equal. lia.
    + rewrite Se, IHe, IHm, <- andb_assoc. f_equal.
      set (m := shr_m r) in *. set (q := 2 ^ Z.of_nat n) in *.
      clearbody m q.
      destruct (m mod q =? 0) eqn:E1.
      * apply Z.eqb_eq in E1. cbn [andb].
        apply Z.mod_divide in E1; [|lia]. destruct E1 as [k Hk].
        rewrite Hk, Z.div_mul by lia.
        destruct (Z.even k) eqn:Ev; symmetry.
        -- apply Z.eqb_eq. apply Z.even_spec in Ev. destruct Ev as [j Hj].
           rewrite Hj. replace (2 * j * q) with (j * (2 * q)) by lia.
           apply Z.mod_mul. lia.
        -- apply Z.eqb_neq. intros C.
           apply Z.mod_divide in C; [|lia]. destruct C as [t Ht].
           assert (k = 2 * t) by nia.
           rewrite H, Z.even_mul in Ev. discriminate.
      * cbn [andb]. symmetry. apply Z.eqb_neq. apply Z.eqb_neq in E1. intros C. apply E1.
        apply Z.mod_divide in C; [|lia]. destruct C as [t Ht].
        rewrite Ht. replace (t * (2 * q)) with ((t * 2) * q) by lia.
        apply Z.mod_mul. lia.
Qed.

(** ** One rounding step *)


Lemma fexp64_eq (z : Z) : fexp64 z = Z.max (z - 53) (-1074).
Proof. reflexivity. Qed.

Lemma record_of_loc_spec (m : Z) (l : location) :
  shr_m (shr_record_of_loc m l) = m /\
  shr_exact (shr_record_of_loc m l) = loc_is_exact l.
Proof. destruct l as [|[| |]]; split; reflexivity. Qed.

Lemma shr_fexp_spec (mx ex : Z) (lx : location) :
  0 <= mx ->
  let P := Z.max 0 (fexp64 (Zdigits2 mx + ex) - ex) in
  snd (shr_fexp prec emax mx ex lx) = ex + P /\
  shr_m (fst (shr_fexp prec emax mx ex lx)) = mx / 2 ^ P /\
  shr_exact (fst (shr_fexp prec emax mx ex lx)) =
    (loc_is_exact lx && (mx mod 2 ^ P =? 0))%bool.
Proof.
  intros Hm P. unfold shr_fexp, shr.
  destruct (record_of_loc_spec mx lx) as [Rm Re].
  subst P.
  destruct (fexp64 (Zdigits2 mx + ex) - ex) as [|p|p] eqn:E.
  - cbn [fst snd]. rewrite Z.max_id, Rm, Re. cbn [Z.pow].
    rewrite Z.div_1_r, Z.mod_1_r, andb_true_r. split; [lia|auto].
  - cbn [fst snd]. rewrite iter_pos_nat.
    assert (H0 : 0 <= shr_m (shr_record_of_loc mx lx)) by (rewrite Rm; exact Hm).
    destruct (shr_iter_spec (Pos.to_nat p) _ H0) as [Sm Se].
    rewrite positive_nat_Z in Sm, Se.
    rewrite Z.max_r by lia.
    rewrite Sm, Se, Rm, Re. auto.
  - cbn [fst snd]. rewrite Z.max_l by lia. rewrite Rm, Re. cbn [Z.pow].
    rewrite Z.div_1_r, Z.mod_1_r, andb_true_r. split; [lia|auto].
Qed.

Lemma rne_spec (m : Z) (r : shr_record) :
  let M1 := round_nearest_even m (loc_of_shr_record r) in
  m <= M1 <= m + 1 /\ (shr_exact r = true -> M1 = m).
Proof.
  destruct r as [m' [|] [|]]; unfold shr_exact; cbn.
  - split; [lia | discriminate].
  - split; [destruct (Z.even m); lia | discriminate].
  - split; [lia | discriminate].
  - split; [lia | reflexivity].
Qed.

Lemma div_pow2_digits (mx P : Z) :
  0 < mx -> 0 <= P -> 0 < mx / 2 ^ P ->
  Zdigits2 (mx / 2 ^ P) = Zdigits2 mx - P.
Proof.
  intros Hm HP Hq.
  pose proof (Zdigits2_bounds mx Hm) as [L U].
  pose proof (Zdigits2_pos mx Hm) as Pd.
  set (d := Zdigits2 mx) in *.
  assert (P2 : 0 < 2 ^ P) by (apply Z.pow_pos_nonneg; lia).
  assert (HPd : P < d).
  { destruct (Z_lt_le_dec P d) as [|G]; [assumption|exfalso].
    assert (2 ^ d <= 2 ^ P) by (apply Z.pow_le_mono_r; lia).
    rewrite Z.div_small in Hq by lia. lia. }
  apply Zdigits2_unique; [|exact Hq].
  split.
  - apply Z.div_le_lower_bound; [lia|].
    rewrite <- Z.pow_add_r by lia. replace (P + (d - P - 1)) with (d - 1) by lia. exact L.
  - apply Z.div_lt_upper_bound; [lia|].
    rewrite <- Z.pow_add_r by lia. replace (P + (d - P)) with d by lia. exact U.
Qed.

(** The generic rounding step. *)
Lemma bra_spec (s : bool) (mx ex : Z) (lx : location) :
  0 <= mx -> ex <= fexp64 (Zdigits2 mx + ex) ->
  let F := fexp64 (Zdigits2 mx + ex) in
  let P := F - ex in
  exists M1,
    mx / 2 ^ P <= M1 <= mx / 2 ^ P + 1 /\
    (lx = loc_Exact -> mx mod 2 ^ P = 0 -> M1 = mx / 2 ^ P) /\
    ((M1 = 0 /\ binary_round_aux prec emax s mx ex lx = S754_zero s) \/
     (0 < M1 /\ exists m e,
        Z.pos m * 2 ^ (e - F) = M1 /\ F <= e /\
        canonical_mantissa prec emax m e = true /\
        binary_round_aux prec emax s mx ex lx =
          if e <=? 971 then S754_finite s m e else S754_infinity s)).
Proof.
  intros Hm Hp F P.
  assert (HP : 0 <= P) by (unfold P; lia).
  assert (HF : -1074 <= F) by (unfold F; rewrite fexp64_eq; lia).
  unfold binary_round_aux.
  destruct (shr_fexp_spec mx ex lx Hm) as (E1 & M1' & X1).
  fold F in E1, M1', X1. rewrite (Z.max_r 0 (F - ex)) in E1, M1', X1 by lia.
  fold P in E1, M1', X1.
  destruct (shr_fexp prec emax mx ex lx) as [mrs' e'] eqn:S1.
  cbn [fst snd] in E1, M1', X1.
  assert (Ee : e' = F) by (unfold P in E1; lia). clear E1. subst e'.
  destruct (rne_spec (shr_m mrs') mrs') as [B1 B2].
  set (M1 := round_nearest_even (shr_m mrs') (loc_of_shr_record mrs')) in *.
  rewrite M1' in B1, B2.
  assert (Hq : 0 <= mx / 2 ^ P) by (apply Z.div_pos; [lia | apply Z.pow_pos_nonneg; lia]).
  exists M1. split; [exact B1|]. split.
  { intros -> Hmod. apply B2. rewrite X1. cbn [loc_is_exact andb].
    apply Z.eqb_eq. exact Hmod. }
  assert (HM1 : 0 <= M1) by lia.
  destruct (shr_fexp_spec M1 F loc_Exact HM1) as (E2 & M2 & X2).
  destruct (shr_fexp prec emax M1 F loc_Exact) as [mrs'' e''] eqn:S2.
  cbn [fst snd] in E2, M2, X2.
  destruct (Z.eq_dec M1 0) as [Z1|NZ1].
  - left. split; [exact Z1|].
    rewrite Z1 in M2. rewrite Z.div_0_l in M2
      by (apply Z.pow_nonzero; lia). rewrite M2. reflexivity.
  - right. split; [lia|].
    assert (PM1 : 0 < M1) by lia.
    (* digits of the shifted mantissa *)
    assert (DF : fexp64 (Zdigits2 (mx / 2 ^ P) + F) <= F /\
                 (0 < mx / 2 ^ P -> fexp64 (Zdigits2 (mx / 2 ^ P) + F) = F) /\
                 (mx / 2 ^ P = 0 -> F = -1074)).
    { destruct (Z.eq_dec (mx / 2 ^ P) 0) as [Zq|NZq].
      - rewrite Zq. cbn [Zdigits2]. rewrite fexp64_eq. split; [lia|].
        split; [lia|]. intros _.
        destruct (Z.eq_dec mx 0) as [Zm|NZm].
        + unfold F. rewrite Zm. cbn [Zdigits2]. rewrite fexp64_eq.
          unfold F in Hp. rewrite Zm in Hp. cbn [Zdigits2] in Hp.
          rewrite fexp64_eq in Hp. lia.
        + assert (Pm : 0 < mx) by lia.
          pose proof (Zdigits2_bounds mx Pm) as [L U].
          assert (mx < 2 ^ P).
          { destruct (Z_lt_le_dec mx (2 ^ P)) as [|G]; [assumption|exfalso].
            assert (1 <= mx / 2 ^ P).
            { apply Z.div_le_lower_bound; [apply Z.pow_pos_nonneg; lia | lia]. }
            lia. }
          assert (Zdigits2 mx - 1 < P).
          { apply (Z.pow_lt_mono_r_iff 2); lia. }
          unfold P in H0. unfold F in *. rewrite fexp64_eq in *. lia.
      - assert (Pq : 0 < mx / 2 ^ P) by lia.
        assert (Pm : 0 < mx).
        { destruct (Z.eq_dec mx 0) as [Zm|]; [|lia].
          rewrite Zm, Z.div_0_l in Pq by (apply Z.pow_nonzero; lia). lia. }
        rewrite (div_pow2_digits mx P Pm HP Pq).
        replace (Zdigits2 mx - P + F) with (Zdigits2 mx + ex) by (unfold P; lia).
        fold F. split; [lia|]. split; [reflexivity | lia]. }
    destruct DF as (DF1 & DF2 & DF3).
    pose proof (Zdigits2_bounds M1 PM1) as [L1 U1].
    pose proof (Zdigits2_pos M1 PM1) as PD1.
    set (D1 := Zdigits2 M1) in *.
    (* the second shift is by 0 or by 1, and by 1 only on an even mantissa *)
    assert (C : (fexp64 (D1 + F) - F = 0) \/
                (fexp64 (D1 + F) - F = 1 /\ M1 = 2 ^ 53)).
    { destruct (Z.eq_dec (mx / 2 ^ P) 0) as [Zq|NZq].
      - assert (M1 = 1) by lia. left.
        assert (D1 = 1) by (unfold D1; rewrite H; reflexivity).
        rewrite H0, (DF3 Zq), fexp64_eq. lia.
      - assert (Pq : 0 < mx / 2 ^ P) by lia.
        specialize (DF2 Pq).
        pose proof (Zdigits2_bounds _ Pq) as [L0 U0].
        pose proof (Zdigits2_pos _ Pq) as PD0.
        set (D := Zdigits2 (mx / 2 ^ P)) in *.
        assert (D <= D1 <= D + 1).
        { split.
          - destruct (Z_le_gt_dec D D1) as [|G]; [assumption|exfalso].
            assert (2 ^ D1 <= 2 ^ (D - 1)) by (apply Z.pow_le_mono_r; lia). lia.
          - destruct (Z_le_gt_dec D1 (D + 1)) as [|G]; [assumption|exfalso].
            assert (2 ^ (D + 1) <= 2 ^ (D1 - 1)) by (apply Z.pow_le_mono_r; lia).
            rewrite Z.pow_add_r in H by lia. lia. }
        rewrite fexp64_eq in DF2 |- *.
        destruct (Z.eq_dec D1 D) as [->|ND]; [left; lia|].
        assert (ED : D1 = D + 1) by lia.
        assert (M1 = 2 ^ D).
        { rewrite ED in L1. replace (D + 1 - 1) with D in L1 by lia. lia. }
        destruct (Z_le_gt_dec (D + F - 53) (-1075)) as [Sub|Nor].
        + left. lia.
        + right. split; [lia|]. rewrite H0. f_equal. lia. }
    destruct C as [C0 | [C1 CM]].
    + rewrite C0 in E2, M2, X2. cbn [Z.max] in E2, M2.
      rewrite Z.pow_0_r, Z.div_1_r in M2.
      rewrite M2.
      destruct M1 as [|m1|m1] eqn:EM1; try lia.
      exists m1, F. replace (F - F) with 0 by lia. rewrite Z.pow_0_r.
      split; [lia|]. split; [lia|]. split.
      * unfold canonical_mantissa. apply Z.eqb_eq.
        change (Z.pos (digits2_pos m1)) with (Zdigits2 (Z.pos m1)).
        fold D1. lia.
      * replace e'' with F by lia. reflexivity.
    + rewrite C1 in E2, M2, X2. cbn [Z.max] in E2, M2.
      rewrite CM in M2. change (2 ^ 53 / 2 ^ 1) with (2 ^ 52) in M2.
      rewrite M2. cbn [Z.pow Z.pow_pos Pos.iter Z.mul Pos.mul].
      exists (4503599627370496)%positive, (F + 1).
      replace (F + 1 - F) with 1 by lia.
      split; [rewrite CM; reflexivity|]. split; [lia|]. split.
      * unfold canonical_mantissa. apply Z.eqb_eq.
        change (Z.pos (digits2_pos 4503599627370496)) with 53.
        assert (D1 = 54).
        { unfold D1. rewrite CM. reflexivity. }
        rewrite H in C1. rewrite fexp64_eq in C1 |- *. lia.
      * replace e'' with (F + 1) by lia. reflexivity.
Qed.

(** ** Values *)

Local Open Scope Q_scope.


Lemma pow2_pos (e : Z) : 0 < pow2 e.
Proof. apply Qpower_0_lt. reflexivity. Qed.

Lemma pow2_add (a b : Z) : pow2 (a + b) == pow2 a * pow2 b.
Proof. apply Qpower_plus. discriminate. Qed.

Lemma pow2_Z (n : Z) : (0 <= n)%Z -> inject_Z (2 ^ n) == pow2 n.
Proof. intros H. unfold pow2. rewrite Zpower_Qpower by exact H. reflexivity. Qed.

Lemma pow2_le (a b : Z) : (a <= b)%Z -> pow2 a <= pow2 b.
Proof. intros H. apply Qpower_le_compat_l; [exact H | discriminate]. Qed.

Lemma pow2_lt (a b : Z) : (a < b)%Z -> pow2 a < pow2 b.
Proof. intros H. apply Qpower_lt_compat_l; [exact H | reflexivity]. Qed.

Lemma pow2_sub (a b : Z) : pow2 (a - b) * pow2 b == pow2 a.
Proof. rewrite <- pow2_add. replace (a - b + b)%Z with a by lia. reflexivity. Qed.

(** integer facts in Q *)
Lemma inject_Z_le (a b : Z) : (a <= b)%Z -> inject_Z a <= inject_Z b.
Proof. intros H. rewrite <- Zle_Qle. exact H. Qed.

Lemma inject_Z_lt (a b : Z) : (a < b)%Z -> inject_Z a < inject_Z b.
Proof. intros H. rewrite <- Zlt_Qlt. exact H. Qed.

Lemma canonical_big (m : positive) (e : Z) :
  canonical_mantissa prec emax m e = true -> (971 < e)%Z ->
  pow2 1024 <= inject_Z (Z.pos m) * pow2 e.
Proof.
  intros C He. unfold canonical_mantissa in C. apply Z.eqb_eq in C.
  rewrite fexp64_eq in C.
  assert (D : Z.pos (digits2_pos m) = 53%Z) by lia.
  pose proof (digits2_pos_bounds m) as [L _]. rewrite D in L.
  change (2 ^ (53 - 1))%Z with (2 ^ 52)%Z in L.
  apply inject_Z_le in L. rewrite pow2_Z in L by lia.
  assert (E : pow2 1024 == pow2 52 * pow2 972) by (rewrite <- pow2_add; reflexivity).
  rewrite E.
  assert (pow2 972 <= pow2 e) by (apply pow2_le; lia).
  pose proof (pow2_pos 52). pose proof (pow2_pos 972).
  apply Qmult_le_compat_nonneg; split; lra.
Qed.

(** A value [T] in the normal range, read off a mantissa, an exponent and a
    location, is rounded with relative error at most [eps]. *)
Lemma bra_rel (mx ex : Z) (lx : location) (T : Q) :
  (0 <= mx)%Z -> (ex <= fexp64 (Zdigits2 mx + ex))%Z ->
  inject_Z mx * pow2 ex <= T -> T < inject_Z (mx + 1) * pow2 ex ->
  (lx = loc_Exact -> T == inject_Z mx * pow2 ex) ->
  pow2 (-1022) <= T -> T * (1 + eps) < pow2 1024 ->
  exists m e,
    binary_round_aux prec emax false mx ex lx = S754_finite false m e /\
    bounded prec emax m e = true /\
    pow2 (-1022) <= inject_Z (Z.pos m) * pow2 e /\
    T * (1 - eps) <= inject_Z (Z.pos m) * pow2 e <= T * (1 + eps).
Proof.
  intros Hm Hp Lo Hi Ex Nor Ovf.
  destruct (bra_spec false mx ex lx Hm Hp) as (M1 & B & Bx & R).
  set (F := fexp64 (Zdigits2 mx + ex)) in *.
  set (P := (F - ex)%Z) in *.
  assert (HP : (0 <= P)%Z) by (unfold P; lia).
  assert (P2 : (0 < 2 ^ P)%Z) by (apply Z.pow_pos_nonneg; lia).
  set (M0 := (mx / 2 ^ P)%Z) in *.
  assert (DM : (M0 * 2 ^ P <= mx < (M0 + 1) * 2 ^ P)%Z).
  { unfold M0. pose proof (Z.div_mod mx (2 ^ P)). pose proof (Z.mod_pos_bound mx (2 ^ P)). lia. }
  assert (EF : pow2 F == pow2 P * pow2 ex).
  { rewrite <- pow2_add. unfold P. replace (F - ex + ex)%Z with F by lia. reflexivity. }
  pose proof (pow2_pos ex) as Pex. pose proof (pow2_pos F) as PF.
  pose proof (pow2_pos P) as PP.
  (* T lies between M0 and M0 + 1 units of 2^F *)
  assert (TL : inject_Z M0 * pow2 F <= T).
  { apply Qle_trans with (inject_Z mx * pow2 ex); [|exact Lo].
    rewrite EF, Qmult_assoc. apply Qmult_le_compat_r; [|lra].
    rewrite <- pow2_Z by lia. rewrite <- inject_Z_mult. apply inject_Z_le. lia. }
  assert (TU : T < inject_Z (M0 + 1) * pow2 F).
  { apply Qlt_le_trans with (inject_Z (mx + 1) * pow2 ex); [exact Hi|].
    rewrite EF, Qmult_assoc. apply Qmult_le_compat_r; [|lra].
    rewrite <- pow2_Z by lia. rewrite <- inject_Z_mult. apply inject_Z_le. lia. }
  (* the shifted mantissa has 53 bits *)
  assert (Big : (2 ^ 52 <= M0)%Z).
  { assert (HF : (F = -1074 \/ F = Zdigits2 mx + ex - 53)%Z)
      by (unfold F; rewrite fexp64_eq; lia).
    destruct HF as [HF|HF].
    - assert (inject_Z (2 ^ 52) < inject_Z (M0 + 1)).
      { apply Qmult_lt_r with (pow2 F); [exact PF|].
        apply Qle_lt_trans with T; [|exact TU].
        apply Qle_trans with (pow2 (-1022)); [|exact Nor].
        rewrite pow2_Z by lia. rewrite <- pow2_add, HF. apply pow2_le. lia. }
      rewrite <- Zlt_Qlt in H. lia.
    - assert (Pm : (0 < mx)%Z).
      { destruct (Z.eq_dec mx 0) as [Zm|]; [|lia]. exfalso.
        rewrite Zm in HF. cbn [Zdigits2] in HF.
        assert (F >= -1074)%Z by (unfold F; rewrite fexp64_eq; lia).
        unfold P in HP. lia. }
      pose proof (Zdigits2_bounds mx Pm) as [L U].
      unfold M0. apply Z.div_le_lower_bound; [lia|].
      rewrite <- Z.pow_add_r by lia.
      replace (P + 52)%Z with (Zdigits2 mx - 1)%Z by (unfold P; lia). exact L. }
  assert (BigQ : pow2 52 * pow2 F <= T).
  { apply Qle_trans with (inject_Z M0 * pow2 F); [|exact TL].
    apply Qmult_le_compat_r; [|lra]. rewrite <- pow2_Z by lia. apply inject_Z_le. exact Big. }
  assert (UF : pow2 F <= T * eps).
  { unfold eps.
    assert (E : pow2 F == pow2 52 * pow2 F * pow2 (-52)).
    { rewrite (Qmult_comm (pow2 52)), <- Qmult_assoc, <- pow2_add.
      change (pow2 (52 + -52)) with 1. ring. }
    rewrite E. apply Qmult_le_compat_r; [exact BigQ|]. pose proof (pow2_pos (-52)). lra. }
  assert (VB : T - pow2 F <= inject_Z M1 * pow2 F <= T + pow2 F).
  { rewrite inject_Z_plus in TU. change (inject_Z 1) with 1 in TU.
    destruct B as [B1 B2]. apply inject_Z_le in B1, B2.
    rewrite inject_Z_plus in B2. change (inject_Z 1) with 1 in B2.
    fold M0 in B1, B2.
    assert (inject_Z M0 * pow2 F <= inject_Z M1 * pow2 F)
      by (apply Qmult_le_compat_r; lra).
    assert (inject_Z M1 * pow2 F <= (inject_Z M0 + 1) * pow2 F)
      by (apply Qmult_le_compat_r; lra).
    split; lra. }
  destruct R as [[Z1 _] | (PM1 & m & e & Em & Fe & Can & Res)].
  { exfalso. destruct B as [B1 _]. fold M0 in B1. assert (0 < 2 ^ 52)%Z by (apply Z.pow_pos_nonneg; lia). lia. }
  assert (Val : inject_Z (Z.pos m) * pow2 e == inject_Z M1 * pow2 F).
  { rewrite <- Em, inject_Z_mult, pow2_Z by lia.
    rewrite <- Qmult_assoc, pow2_sub. reflexivity. }
  exists m, e.
  assert (He : (e <= 971)%Z).
  { destruct (Z_le_gt_dec e 971) as [|G]; [assumption|exfalso].
    pose proof (canonical_big m e Can ltac:(lia)) as Bg.
    rewrite Val in Bg. lra. }
  split.
  - rewrite Res. apply Z.leb_le in He. rewrite He. reflexivity.
  - split; [unfold bounded; rewrite Can; apply Z.leb_le; exact He|].
    rewrite Val. split; [|split; lra].
    apply Qle_trans with (pow2 52 * pow2 (-1074)).
    + rewrite <- pow2_add. apply Qle_refl.
    + assert (HF : (-1074 <= F)%Z) by (unfold F; rewrite fexp64_eq; lia).
      assert (pow2 (-1074) <= pow2 F) by (apply pow2_le; exact HF).
      assert (inject_Z (2 ^ 52) <= inject_Z M1)
        by (apply inject_Z_le; destruct B as [B1 _]; fold M0 in B1; lia).
      rewrite pow2_Z in H0 by lia.
      pose proof (pow2_pos 52). pose proof (pow2_pos (-1074)).
      apply Qmult_le_compat_nonneg; split; lra.
Qed.


Lemma bounded_inv (m : positive) (e : Z) :
  bounded prec emax m e = true ->
  ((Z.pos (digits2_pos m) = 53 /\ -1074 <= e) \/
   (Z.pos (digits2_pos m) <= 53 /\ e = -1074))%Z /\ (e <= 971)%Z.
Proof.
  unfold bounded, canonical_mantissa. intros H.
  apply andb_true_iff in H. destruct H as [C B].
  apply Z.eqb_eq in C. apply Z.leb_le in B. rewrite fexp64_eq in C.
  change (emax - prec)%Z with 971%Z in B. lia.
Qed.

Lemma Zdigits2_le53 (z : Z) : (2 ^ 52 <= z)%Z -> (53 <= Zdigits2 z)%Z.
Proof.
  intros H. assert (Pz : (0 < z)%Z) by (assert (0 < 2 ^ 52)%Z by reflexivity; lia).
  pose proof (Zdigits2_bounds z Pz) as [_ U].
  destruct (Z_le_gt_dec 53 (Zdigits2 z)) as [|G]; [assumption|exfalso].
  assert (2 ^ Zdigits2 z <= 2 ^ 52)%Z
    by (apply Z.pow_le_mono_r; lia).
  lia.
Qed.

Lemma big_mantissa_p (mx ex : Z) :
  (2 ^ 52 <= mx)%Z -> (ex <= fexp64 (Zdigits2 mx + ex))%Z.
Proof.
  intros H. pose proof (Zdigits2_le53 mx H). rewrite fexp64_eq. lia.
Qed.

(** ** Multiplication *)
Lemma SF64mul_rel (x y : spec_float) :
  pos_finite x -> pos_finite y ->
  pow2 (-1022) <= B2Q x * B2Q y ->
  B2Q x * B2Q y * (1 + eps) < pow2 1024 ->
  pos_finite (SF64mul x y) /\
  pow2 (-1022) <= B2Q (SF64mul x y) /\
  B2Q x * B2Q y * (1 - eps) <= B2Q (SF64mul x y) <= B2Q x * B2Q y * (1 + eps).
Proof.
  intros (mx & ex & -> & Bx) (my & ey & -> & By) Nor Ovf.
  cbn [B2Q] in *.
  unfold SF64mul, SFmul. cbn [xorb].
  set (T := inject_Z (Z.pos mx) * pow2 ex * (inject_Z (Z.pos my) * pow2 ey)) in *.
  assert (ET : T == inject_Z (Z.pos (mx * my)) * pow2 (ex + ey)).
  { unfold T. rewrite Pos2Z.inj_mul, inject_Z_mult, pow2_add. ring. }
  assert (Big : (2 ^ 52 <= Z.pos (mx * my))%Z).
  { destruct (Z_le_gt_dec (2 ^ 52) (Z.pos (mx * my))) as [|G]; [assumption|exfalso].
    destruct (bounded_inv mx ex Bx) as [Cx _].
    destruct (bounded_inv my ey By) as [Cy _].
    pose proof (digits2_pos_bounds mx) as [Lx Ux].
    pose proof (digits2_pos_bounds my) as [Ly Uy].
    rewrite Pos2Z.inj_mul in G.
    assert (Sx : (ex = -1074)%Z).
    { destruct Cx as [[D _]|[_ E]]; [exfalso|exact E].
      rewrite D in Lx. change (2 ^ (53 - 1))%Z with (2 ^ 52)%Z in Lx. nia. }
    assert (Sy : (ey = -1074)%Z).
    { destruct Cy as [[D _]|[_ E]]; [exfalso|exact E].
      rewrite D in Ly. change (2 ^ (53 - 1))%Z with (2 ^ 52)%Z in Ly. nia. }
    assert (T < pow2 52 * pow2 (-2148)).
    { rewrite ET, Sx, Sy. change (-1074 + -1074)%Z with (-2148)%Z.
      apply Qmult_lt_compat_r; [apply pow2_pos|].
      rewrite <- pow2_Z by lia. apply inject_Z_lt. rewrite Pos2Z.inj_mul. lia. }
    assert (pow2 52 * pow2 (-2148) <= pow2 (-1022)).
    { rewrite <- pow2_add. apply pow2_le. lia. }
    lra. }
  destruct (bra_rel (Z.pos (mx * my)) (ex + ey) loc_Exact T) as (m & e & R & Bd & V).
  - lia.
  - apply big_mantissa_p. exact Big.
  - rewrite ET. apply Qle_refl.
  - rewrite ET. apply Qmult_lt_compat_r; [apply pow2_pos|]. apply inject_Z_lt. lia.
  - intros _. exact ET.
  - exact Nor.
  - exact Ovf.
  - rewrite R. split; [exists m, e; auto|]. cbn [B2Q]. exact V.
Qed.

(** ** Addition *)
Lemma iter_xO (m d : positive) :
  Z.pos (Pos.iter xO m d) = (Z.pos m * 2 ^ Z.pos d)%Z.
Proof.
  induction d as [|d IH] using Pos.peano_ind.
  - cbn [Pos.iter]. lia.
  - rewrite Pos.iter_succ, Pos2Z.inj_xO, IH, Pos2Z.inj_succ, Z.pow_succ_r by lia. lia.
Qed.

Lemma shl_align_spec (mx : positive) (ex ex' : Z) :
  let '(m, e) := shl_align mx ex ex' in
  (e = Z.min ex ex') /\ Z.pos m = (Z.pos mx * 2 ^ (ex - e))%Z.
Proof.
  unfold shl_align. destruct (ex' - ex)%Z as [|d|d] eqn:E.
  - split; [lia|]. replace (ex - ex)%Z with 0%Z by lia. lia.
  - split; [lia|]. replace (ex - ex)%Z with 0%Z by lia. lia.
  - split; [lia|]. rewrite iter_xO. f_equal. f_equal. lia.
Qed.

Lemma Zdigits2_mul_pow2 (m k : Z) :
  (0 < m)%Z -> (0 <= k)%Z -> Zdigits2 (m * 2 ^ k) = (Zdigits2 m + k)%Z.
Proof.
  intros Hm Hk.
  pose proof (Zdigits2_bounds m Hm) as [L U].
  pose proof (Zdigits2_pos m Hm).
  assert (0 < 2 ^ k)%Z by (apply Z.pow_pos_nonneg; lia).
  apply Zdigits2_unique; [|nia].
  replace (Zdigits2 m + k - 1)%Z with ((Zdigits2 m - 1) + k)%Z by lia.
  rewrite !Z.pow_add_r by lia. nia.
Qed.

(** [binary_round] of a positive mantissa. *)
Lemma binary_round_rel (mx : positive) (ex : Z) :
  pow2 (-1022) <= inject_Z (Z.pos mx) * pow2 ex ->
  inject_Z (Z.pos mx) * pow2 ex * (1 + eps) < pow2 1024 ->
  exists m e,
    binary_round prec emax false mx ex = S754_finite false m e /\
    bounded prec emax m e = true /\
    pow2 (-1022) <= inject_Z (Z.pos m) * pow2 e /\
    inject_Z (Z.pos mx) * pow2 ex * (1 - eps)
      <= inject_Z (Z.pos m) * pow2 e
      <= inject_Z (Z.pos mx) * pow2 ex * (1 + eps).
Proof.
  intros Nor Ovf. unfold binary_round.
  pose proof (shl_align_spec mx ex (fexp64 (Z.pos (digits2_pos mx) + ex))) as S.
  destruct (shl_align mx ex (fexp64 (Z.pos (digits2_pos mx) + ex))) as [mz ez].
  destruct S as [Ez Mz].
  set (T := inject_Z (Z.pos mx) * pow2 ex) in *.
  assert (He : (0 <= ex - ez)%Z) by lia.
  assert (ET : T == inject_Z (Z.pos mz) * pow2 ez).
  { unfold T. rewrite Mz, inject_Z_mult, pow2_Z by lia.
    rewrite <- Qmult_assoc, pow2_sub. reflexivity. }
  apply (bra_rel (Z.pos mz) ez loc_Exact T).
  - lia.
  - rewrite Mz, Zdigits2_mul_pow2 by lia.
    replace (Zdigits2 (Z.pos mx) + (ex - ez) + ez)%Z
      with (Z.pos (digits2_pos mx) + ex)%Z by (cbn [Zdigits2]; lia).
    lia.
  - rewrite ET. apply Qle_refl.
  - rewrite ET. apply Qmult_lt_compat_r; [apply pow2_pos|]. apply inject_Z_lt. lia.
  - intros _. exact ET.
  - exact Nor.
  - exact Ovf.
Qed.

Lemma SF64add_rel (x y : spec_float) :
  pos_finite x -> pos_finite y ->
  pow2 (-1022) <= B2Q x + B2Q y ->
  (B2Q x + B2Q y) * (1 + eps) < pow2 1024 ->
  pos_finite (SF64add x y) /\
  pow2 (-1022) <= B2Q (SF64add x y) /\
  (B2Q x + B2Q y) * (1 - eps) <= B2Q (SF64add x y) <= (B2Q x + B2Q y) * (1 + eps).
Proof.
  intros (mx & ex & -> & Bx) (my & ey & -> & By) Nor Ovf.
  cbn [B2Q] in *.
  unfold SF64add, SFadd. cbn [cond_Zopp].
  pose proof (shl_align_spec mx ex (Z.min ex ey)) as Sx.
  pose proof (shl_align_spec my ey (Z.min ex ey)) as Sy.
  destruct (shl_align mx ex (Z.min ex ey)) as [ax e1].
  destruct (shl_align my ey (Z.min ex ey)) as [ay e2].
  destruct Sx as [E1 A1]. destruct Sy as [E2 A2]. cbn [fst].
  assert (E1' : e1 = Z.min ex ey) by lia.
  assert (E2' : e2 = Z.min ex ey) by lia.
  set (ez := Z.min ex ey) in *.
  change (Z.pos ax + Z.pos ay)%Z with (Z.pos (ax + ay)).
  cbn [binary_normalize].
  assert (ET : inject_Z (Z.pos mx) * pow2 ex + inject_Z (Z.pos my) * pow2 ey
               == inject_Z (Z.pos (ax + ay)) * pow2 ez).
  { rewrite Pos2Z.inj_add, inject_Z_plus, A1, A2, !inject_Z_mult.
    rewrite !pow2_Z by lia. rewrite E1', E2'.
    rewrite Qmult_plus_distr_l, <- !Qmult_assoc, !pow2_sub. reflexivity. }
  rewrite ET in Nor, Ovf |- *.
  destruct (binary_round_rel (ax + ay) ez Nor Ovf) as (m & e & R & Bd & V).
  rewrite R. split; [exists m, e; auto|]. cbn [B2Q]. exact V.
Qed.

(** ** Division *)
Lemma new_location_exact (nb k : Z) :
  new_location nb k = loc_Exact -> k = 0%Z.
Proof.
  unfold new_location, new_location_even, new_location_odd.
  destruct (Z.even nb); destruct (k =? 0)%Z eqn:E;
    try discriminate; intros _; apply Z.eqb_eq; exact E.
Qed.

Lemma SF64div_rel (x y : spec_float) :
  pos_finite x -> pos_finite y ->
  pow2 (-1022) <= B2Q x / B2Q y ->
  B2Q x / B2Q y * (1 + eps) < pow2 1024 ->
  pos_finite (SF64div x y) /\
  pow2 (-1022) <= B2Q (SF64div x y) /\
  B2Q x / B2Q y * (1 - eps) <= B2Q (SF64div x y) <= B2Q x / B2Q y * (1 + eps).
Proof.
  intros (mx & ex & -> & Bx) (my & ey & -> & By) Nor Ovf.
  cbn [B2Q] in *.
  unfold SF64div, SFdiv, SFdiv_core_binary. cbn [xorb].
  set (T := inject_Z (Z.pos mx) * pow2 ex / (inject_Z (Z.pos my) * pow2 ey)) in *.
  set (D := (Zdigits2 (Z.pos mx) + ex - (Zdigits2 (Z.pos my) + ey))%Z).
  set (e' := Z.min (fexp64 D) (ex - ey)).
  set (s := (ex - ey - e')%Z).
  assert (Hs : (0 <= s)%Z) by (unfold s, e'; lia).
  set (m' := match s with
             | 0%Z => Z.pos mx
             | Z.pos _ => Z.shiftl (Z.pos mx) s
             | Z.neg _ => 0%Z
             end).
  assert (Em' : m' = (Z.pos mx * 2 ^ s)%Z).
  { unfold m'. destruct s as [|p|p] eqn:Es; [cbn; lia | | lia].
    rewrite Z.shiftl_mul_pow2 by lia. reflexivity. }
  clearbody m'.
  pose proof (Z_div_mod m' (Z.pos my) ltac:(lia)) as DM.
  destruct (Z.div_eucl m' (Z.pos my)) as [q r]. destruct DM as [DM Rr].
  pose proof (pow2_pos ex) as Pex. pose proof (pow2_pos ey) as Pey.
  pose proof (pow2_pos e') as Pe'.
  assert (Pmx : 0 < inject_Z (Z.pos mx)) by (apply (inject_Z_lt 0); lia).
  assert (Pmy : 0 < inject_Z (Z.pos my)) by (apply (inject_Z_lt 0); lia).
  assert (PY : 0 < inject_Z (Z.pos my) * pow2 ey) by (apply Qmult_lt_0_compat; assumption).
  (* T is m'/my in units of 2^e' *)
  assert (ET : T * inject_Z (Z.pos my) == inject_Z m' * pow2 e').
  { unfold T. rewrite Em', inject_Z_mult, pow2_Z by lia.
    assert (E : pow2 ex == pow2 s * pow2 e' * pow2 ey).
    { rewrite <- !pow2_add. unfold s. replace (ex - ey - e' + e' + ey)%Z with ex by lia.
      reflexivity. }
    rewrite E. field. split; lra. }
  assert (Lo : inject_Z q * pow2 e' <= T).
  { apply Qmult_le_r with (inject_Z (Z.pos my)); [exact Pmy|].
    rewrite ET. rewrite (Qmult_comm (inject_Z q * pow2 e')), Qmult_assoc.
    apply Qmult_le_compat_r; [|lra]. rewrite <- inject_Z_mult. apply inject_Z_le. lia. }
  assert (Hi : T < inject_Z (q + 1) * pow2 e').
  { apply Qmult_lt_r with (inject_Z (Z.pos my)); [exact Pmy|].
    rewrite ET. rewrite (Qmult_comm (inject_Z (q + 1) * pow2 e')), Qmult_assoc.
    apply Qmult_lt_compat_r; [lra|]. rewrite <- inject_Z_mult. apply inject_Z_lt. nia. }
  (* the quotient has at least 53 bits *)
  assert (TD : pow2 (D - 1) <= T).
  { unfold T. apply Qle_shift_div_l; [exact PY|].
    pose proof (digits2_pos_bounds mx) as [Lx _].
    pose proof (digits2_pos_bounds my) as [_ Uy].
    apply inject_Z_le in Lx. apply inject_Z_lt in Uy.
    rewrite pow2_Z in Lx, Uy by lia.
    apply Qle_trans with (pow2 (D - 1) * (pow2 (Z.pos (digits2_pos my)) * pow2 ey)).
    - apply Qmult_le_l; [apply pow2_pos|].
      apply Qmult_le_compat_r; lra.
    - rewrite <- !pow2_add.
      apply Qle_trans with (pow2 (Z.pos (digits2_pos mx) - 1) * pow2 ex).
      + rewrite <- pow2_add. apply pow2_le. unfold D. cbn [Zdigits2]. lia.
      + apply Qmult_le_compat_r; lra. }
  assert (Big : (2 ^ 52 <= q)%Z).
  { assert (B52 : pow2 52 * pow2 e' <= T).
    { rewrite <- pow2_add.
      assert (He' : (e' <= -1074 \/ e' <= D - 53)%Z)
        by (unfold e'; rewrite fexp64_eq; lia).
      destruct He' as [He'|He'].
      - apply Qle_trans with (pow2 (-1022)); [apply pow2_le; lia | exact Nor].
      - apply Qle_trans with (pow2 (D - 1)); [apply pow2_le; lia | exact TD]. }
    assert (inject_Z (2 ^ 52) < inject_Z (q + 1)).
    { apply Qmult_lt_r with (pow2 e'); [exact Pe'|].
      rewrite pow2_Z by lia. lra. }
    rewrite <- Zlt_Qlt in H. lia. }
  destruct (bra_rel q e' (new_location (Z.pos my) r) T) as (m & e & R & Bd & V).
  - lia.
  - apply big_mantissa_p. exact Big.
  - exact Lo.
  - exact Hi.
  - intros Hl. apply new_location_exact in Hl.
    apply Qmult_inj_r with (inject_Z (Z.pos my)); [lra|].
    rewrite ET, DM, Hl, Z.add_0_r, inject_Z_mult. ring.
  - exact Nor.
  - exact Ovf.
  - fold D. fold e'. fold s. rewrite R.
    split; [exists m, e; auto|]. cbn [B2Q]. exact V.
Qed.

(** ** Order *)

Lemma pos_finite_pos (x : spec_float) : pos_finite x -> 0 < B2Q x.
Proof.
  intros (m & e & -> & _). cbn [B2Q].
  apply Qmult_lt_0_compat; [apply (inject_Z_lt 0); lia | apply pow2_pos].
Qed.

Lemma pos_finite_below_overflow (x : spec_float) :
  pos_finite x -> B2Q x < pow2 1024.
Proof.
  intros (m & e & -> & Bd). cbn [B2Q].
  destruct (bounded_inv m e Bd) as [C He].
  pose proof (digits2_pos_bounds m) as [_ U].
  assert (Hm : (Z.pos m < 2 ^ 53)%Z).
  { apply Z.lt_le_trans with (2 ^ Z.pos (digits2_pos m))%Z; [exact U|].
    apply Z.pow_le_mono_r; lia. }
  apply inject_Z_lt in Hm. rewrite pow2_Z in Hm by lia.
  assert (E : pow2 1024 == pow2 53 * pow2 971) by (rewrite <- pow2_add; reflexivity).
  rewrite E.
  assert (pow2 e <= pow2 971) by (apply pow2_le; exact He).
  pose proof (pow2_pos e). pose proof (pow2_pos 53).
  apply Qlt_le_trans with (pow2 53 * pow2 e).
  - apply Qmult_lt_compat_r; assumption.
  - apply Qmult_le_l; assumption.
Qed.

Lemma lt_by_exponent (mx my : positive) (ex ey : Z) :
  bounded prec emax mx ex = true -> bounded prec emax my ey = true ->
  (ex < ey)%Z ->
  inject_Z (Z.pos mx) * pow2 ex < inject_Z (Z.pos my) * pow2 ey.
Proof.
  intros Bx By Lt.
  destruct (bounded_inv mx ex Bx) as [Cx _].
  destruct (bounded_inv my ey By) as [Cy _].
  pose proof (digits2_pos_bounds mx) as [_ Ux].
  pose proof (digits2_pos_bounds my) as [Ly _].
  assert (Hx : (Z.pos mx < 2 ^ 53)%Z).
  { apply Z.lt_le_trans with (2 ^ Z.pos (digits2_pos mx))%Z; [exact Ux|].
    apply Z.pow_le_mono_r; lia. }
  assert (Hy : (2 ^ 52 <= Z.pos my)%Z).
  { assert (D : Z.pos (digits2_pos my) = 53%Z) by lia.
    rewrite D in Ly. exact Ly. }
  apply inject_Z_lt in Hx. apply inject_Z_le in Hy.
  rewrite pow2_Z in Hx, Hy by lia.
  pose proof (pow2_pos ex). pose proof (pow2_pos ey). pose proof (pow2_pos 52).
  apply Qlt_le_trans with (pow2 53 * pow2 ex).
  - apply Qmult_lt_compat_r; assumption.
  - apply Qle_trans with (pow2 52 * pow2 ey).
    + rewrite <- !pow2_add. apply pow2_le. lia.
    + apply Qmult_le_compat_r; lra.
Qed.

(** On positive finite floats the comparison is the comparison of the
    values. *)
Lemma SFcompare_pos (x y : spec_float) :
  pos_finite x -> pos_finite y ->
  SFcompare x y = Some (Qcompare (B2Q x) (B2Q y)).
Proof.
  intros (mx & ex & -> & Bx) (my & ey & -> & By).
  cbn [SFcompare B2Q]. f_equal.
  destruct (Z.compare_spec ex ey) as [E|L|G].
  - subst ey. change (Pos.compare_cont Eq mx my) with (Pos.compare mx my).
    pose proof (pow2_pos ex) as Pe.
    destruct (Pos.compare_spec mx my) as [E|L|G]; symmetry.
    + subst my. apply (proj1 (Qeq_alt _ _)). reflexivity.
    + apply (proj1 (Qlt_alt _ _)). apply Qmult_lt_compat_r; [exact Pe|].
      apply inject_Z_lt. lia.
    + apply (proj1 (Qgt_alt _ _)). apply Qmult_lt_compat_r; [exact Pe|].
      apply inject_Z_lt. lia.
  - symmetry. apply (proj1 (Qlt_alt _ _)). apply lt_by_exponent; assumption.
  - symmetry. apply (proj1 (Qgt_alt _ _)). apply lt_by_exponent; assumption.
Qed.

Lemma SFltb_pos (x y : spec_float) :
  pos_finite x -> pos_finite y -> (SFltb x y = true <-> B2Q x < B2Q y).
Proof.
  intros Hx Hy. unfold SFltb. rewrite (SFcompare_pos x y Hx Hy).
  destruct (Qcompare (B2Q x) (B2Q y)) eqn:C.
  - apply (proj2 (Qeq_alt _ _)) in C. split; [discriminate | lra].
  - apply (proj2 (Qlt_alt _ _)) in C. split; [intros _; exact C | reflexivity].
  - apply (proj2 (Qgt_alt _ _)) in C. split; [discriminate | lra].
Qed.

Lemma SFleb_pos (x y : spec_float) :
  pos_finite x -> pos_finite y -> (SFleb x y = true <-> B2Q x <= B2Q y).
Proof.
  intros Hx Hy. unfold SFleb. rewrite (SFcompare_pos x y Hx Hy).
  destruct (Qcompare (B2Q x) (B2Q y)) eqn:C.
  - apply (proj2 (Qeq_alt _ _)) in C. split; [lra | reflexivity].
  - apply (proj2 (Qlt_alt _ _)) in C. split; [lra | reflexivity].
  - apply (proj2 (Qgt_alt _ _)) in C. split; [discriminate | lra].
Qed.

(** ** Primitive floats through their specification *)

Lemma Prim2SF_zero : Prim2SF (B64.of_int 0) = S754_zero false.
Proof. reflexivity. Qed.

Lemma Prim2SF_infinity : Prim2SF infinity = S754_infinity false.
Proof. reflexivity. Qed.

Lemma Prim2SF_min_reference :
  Prim2SF 0x1p-1018%float = S754_finite false 4503599627370496 (-1070).
Proof. reflexivity. Qed.

(** A reference voltage between 2^-1018 and the largest double is a
    positive normal number. *)
Lemma reference_normal (V : float) :
  (0x1p-1018 <=? V)%float = true -> (V <? infinity)%float = true ->
  pos_finite (Prim2SF V) /\ pow2 (-1018) <= to_Q V /\ to_Q V < pow2 1024.
Proof.
  rewrite FloatAxioms.leb_spec, FloatAxioms.ltb_spec.
  rewrite Prim2SF_min_reference, Prim2SF_infinity.
  intros Lo Hi.
  pose proof (Prim2SF_valid V) as Val. unfold to_Q.
  destruct (Prim2SF V) as [s|s| |s m e]; try discriminate Lo.
  - destruct s; discriminate.
  - destruct s; [discriminate|].
    assert (PV : pos_finite (S754_finite false m e)) by (exists m, e; auto).
    assert (PL : pos_finite (S754_finite false 4503599627370496 (-1070)))
      by (exists 4503599627370496%positive, (-1070)%Z; auto).
    split; [exact PV|]. split.
    + apply (SFleb_pos _ _ PL PV) in Lo.
      assert (E : B2Q (S754_finite false 4503599627370496 (-1070)) == pow2 (-1018))
        by (vm_compute; reflexivity).
      rewrite <- E. exact Lo.
    + apply pos_finite_below_overflow. exact PV.
Qed.

(** ** Approximation by floats *)

Lemma eps_value : eps == 1 # 4503599627370496.
Proof. vm_compute. reflexivity. Qed.

Lemma pow2_m1018 : pow2 (-1018) == 16 * pow2 (-1022).
Proof.
  assert (E : pow2 (-1018) == pow2 4 * pow2 (-1022))
    by (rewrite <- pow2_add; reflexivity).
  rewrite E. reflexivity.
Qed.

(** One more rounding on top of a relative error [eta]. *)
Lemma rel_compose (Z t r eta : Q) :
  0 <= Z -> 0 <= eta <= 1 ->
  Z * (1 - eta) <= t <= Z * (1 + eta) ->
  t * (1 - eps) <= r <= t * (1 + eps) ->
  Z * (1 - (eta + 2 * eps)) <= r <= Z * (1 + (eta + 2 * eps)).
Proof.
  intros HZ [E0 E1] [T0 T1] [R0 R1].
  pose proof eps_value as Ev.
  assert (Ht : 0 <= t).
  { apply Qle_trans with (Z * (1 - eta)); [|exact T0].
    apply Qmult_le_0_compat; lra. }
  assert (P1 : 0 <= Z * eta) by (apply Qmult_le_0_compat; lra).
  assert (A : Z * (1 - eta) * (1 - eps) <= t * (1 - eps))
    by (apply Qmult_le_compat_r; lra).
  assert (B : t * (1 + eps) <= Z * (1 + eta) * (1 + eps))
    by (apply Qmult_le_compat_r; lra).
  assert (C : Z * (1 - eta) * (1 - eps) == Z * (1 - eta - eps) + Z * eta * eps) by ring.
  assert (D : Z * (1 + eta) * (1 + eps) == Z * (1 + eta + eps) + Z * eta * eps) by ring.
  assert (P2 : 0 <= Z * eta * eps) by (apply Qmult_le_0_compat; lra).
  assert (P3 : Z * eta * eps <= Z * eps).
  { assert (G : 0 <= Z * eps * (1 - eta))
      by (apply Qmult_le_0_compat; [apply Qmult_le_0_compat|]; lra).
    assert (G' : Z * eps * (1 - eta) == Z * eps - Z * eta * eps) by ring.
    lra. }
  assert (F1 : Z * (1 - (eta + 2 * eps)) == Z * (1 - eta - eps) - Z * eps) by ring.
  assert (F2 : Z * (1 + (eta + 2 * eps)) == Z * (1 + eta + eps) + Z * eps) by ring.
  assert (P4 : 0 <= Z * eps) by (apply Qmult_le_0_compat; lra).
  split; lra.
Qed.

Lemma approx_eq (eta : Q) (x : float) (X X' : Q) :
  X == X' -> approx eta x X -> approx eta x X'.
Proof.
  intros E [[Z0 Hz] | (Hp & Hn & Hb)].
  - left. split; [rewrite <- E; exact Z0 | exact Hz].
  - right. split; [exact Hp|]. split; [exact Hn|]. rewrite <- E. exact Hb.
Qed.

Lemma approx_weaken (eta eta' : Q) (x : float) (X : Q) :
  0 <= X -> eta <= eta' -> approx eta x X -> approx eta' x X.
Proof.
  intros HX Le [[Z0 Hz] | (Hp & Hn & [B0 B1])].
  - left. auto.
  - right. split; [exact Hp|]. split; [exact Hn|].
    assert (G : 0 <= X * (eta' - eta)) by (apply Qmult_le_0_compat; lra).
    assert (G' : X * (eta' - eta) == X * eta' - X * eta) by ring.
    assert (E0 : X * (1 - eta) == X - X * eta) by ring.
    assert (E1 : X * (1 + eta) == X + X * eta) by ring.
    assert (E2 : X * (1 - eta') == X - X * eta') by ring.
    assert (E3 : X * (1 + eta') == X + X * eta') by ring.
    split; lra.
Qed.

Lemma approx_add_zero_l (eta : Q) (x y : float) (Y : Q) :
  Prim2SF x = S754_zero false -> approx eta y Y -> approx eta (x + y)%float Y.
Proof.
  intros Hx [[Z0 Hz] | ((m & e & Hy & Bd) & Hn & Hb)].
  - left. split; [exact Z0|]. rewrite FloatAxioms.add_spec, Hx, Hz. reflexivity.
  - assert (E : Prim2SF (x + y)%float = Prim2SF y)
      by (rewrite FloatAxioms.add_spec, Hx, Hy; reflexivity).
    right. unfold to_Q in *. rewrite E.
    split; [exists m, e; auto|]. split; [exact Hn | exact Hb].
Qed.

Lemma approx_add_zero_r (eta : Q) (x y : float) (X : Q) :
  approx eta x X -> Prim2SF y = S754_zero false -> approx eta (x + y)%float X.
Proof.
  intros [[Z0 Hz] | ((m & e & Hx & Bd) & Hn & Hb)] Hy.
  - left. split; [exact Z0|]. rewrite FloatAxioms.add_spec, Hy, Hz. reflexivity.
  - assert (E : Prim2SF (x + y)%float = Prim2SF x)
      by (rewrite FloatAxioms.add_spec, Hx, Hy; reflexivity).
    right. unfold to_Q in *. rewrite E.
    split; [exists m, e; auto|]. split; [exact Hn | exact Hb].
Qed.

(** The sum of two approximations, rounded once more. *)
Lemma approx_add (eta : Q) (x y : float) (X Y : Q) :
  approx eta x X -> approx eta y Y ->
  0 <= X -> 0 <= Y -> 0 <= eta <= 1 ->
  (X + Y) * (1 + eta) * (1 + eps) < pow2 1024 ->
  approx (eta + 2 * eps) (x + y)%float (X + Y).
Proof.
  intros Ax Ay HX HY He Ovf.
  pose proof eps_value as Ev.
  assert (Le : eta <= eta + 2 * eps) by lra.
  destruct Ax as [[Zx Hx] | (Px & Nx & Bx)].
  - apply (approx_eq _ _ Y); [rewrite Zx; ring|].
    apply (approx_weaken eta); [exact HY | exact Le|].
    apply approx_add_zero_l; assumption.
  - destruct Ay as [[Zy Hy] | (Py & Ny & By)].
    + apply (approx_eq _ _ X); [rewrite Zy; ring|].
      apply (approx_weaken eta); [exact HX | exact Le|].
      apply approx_add_zero_r; [|exact Hy].
      right. auto.
    + right. unfold to_Q in *. rewrite FloatAxioms.add_spec.
      set (a := B2Q (Prim2SF x)) in *. set (b := B2Q (Prim2SF y)) in *.
      assert (S0 : (X + Y) * (1 - eta) <= a + b <= (X + Y) * (1 + eta)).
      { assert (E0 : (X + Y) * (1 - eta) == X * (1 - eta) + Y * (1 - eta)) by ring.
        assert (E1 : (X + Y) * (1 + eta) == X * (1 + eta) + Y * (1 + eta)) by ring.
        split; lra. }
      assert (Pa : 0 < pow2 (-1022)) by apply pow2_pos.
      destruct (SF64add_rel (Prim2SF x) (Prim2SF y) Px Py) as (Pr & Nr & Br).
      * fold a b. lra.
      * fold a b.
        apply Qle_lt_trans with ((X + Y) * (1 + eta) * (1 + eps)); [|exact Ovf].
        apply Qmult_le_compat_r; lra.
      * fold a b in Br. split; [exact Pr|]. split; [exact Nr|].
        apply (rel_compose (X + Y) (a + b)); try assumption; lra.
Qed.

(** A positive weight times a normal reference voltage. *)
Lemma approx_mul (w V : float) (c : Q) :
  pos_finite (Prim2SF w) -> to_Q w == c -> pos_finite (Prim2SF V) ->
  pow2 (-1022) <= c * to_Q V -> c * to_Q V * (1 + eps) < pow2 1024 ->
  approx eps (w * V)%float (c * to_Q V).
Proof.
  intros Pw Ew PV Nor Ovf. right. unfold to_Q in *. rewrite FloatAxioms.mul_spec.
  rewrite <- Ew in Nor, Ovf |- *.
  destruct (SF64mul_rel (Prim2SF w) (Prim2SF V) Pw PV Nor Ovf) as (Pr & Nr & Br).
  auto.
Qed.

Lemma zero_mul (z V : float) :
  Prim2SF z = S754_zero false -> pos_finite (Prim2SF V) ->
  Prim2SF (z * V)%float = S754_zero false.
Proof.
  intros Hz (m & e & HV & _). rewrite FloatAxioms.mul_spec, Hz, HV. reflexivity.
Qed.

(** ** The binary64 DAC on valid codes *)

Lemma dac_output_bits_b64 (c3 c2 c1 c0 : ascii) (V : float) :
  (c3 = "0" \/ c3 = "1")%char -> (c2 = "0" \/ c2 = "1")%char ->
  (c1 = "0" \/ c1 = "1")%char -> (c0 = "0" \/ c0 = "1")%char ->
  B64.dac_output (String c3 (String c2 (String c1 (String c0 EmptyString)))) V =
  Ok (B64.sum
        [(B64.of_int (bit_value c3) * (B64.of_int 8 / B64.of_int 16) * V)%float;
         (B64.of_int (bit_value c2) * (B64.of_int 4 / B64.of_int 16) * V)%float;
         (B64.of_int (bit_value c1) * (B64.of_int 2 / B64.of_int 16) * V)%float;
         (B64.of_int (bit_value c0) * (B64.of_int 1 / B64.of_int 16) * V)%float]).
Proof.
  intros [->| ->] [->| ->] [->| ->] [->| ->]; reflexivity.
Qed.

(** One term of the sum: zero for the bit 0, the rounded product for 1. *)
Lemma term_approx (c : ascii) (w V : float) (q : Q) :
  (c = "0" \/ c = "1")%char ->
  Prim2SF (B64.of_int 0 * w)%float = S754_zero false ->
  (B64.of_int 1 * w)%float = w ->
  pos_finite (Prim2SF w) -> to_Q w == q -> 1 # 16 <= q -> q <= 1 # 2 ->
  pos_finite (Prim2SF V) -> pow2 (-1018) <= to_Q V -> to_Q V < pow2 1024 ->
  approx eps (B64.of_int (bit_value c) * w * V)%float
         (inject_Z (bit_value c) * q * to_Q V).
Proof.
  intros [->| ->] W0 W1 Pw Ew Q0 Q1 PV Lo Hi.
  - change (bit_value "0") with 0%Z. left. split; [ring|].
    apply zero_mul; assumption.
  - change (bit_value "1") with 1%Z. rewrite W1.
    pose proof eps_value as Ev. pose proof pow2_m1018 as E18.
    pose proof (pow2_pos (-1022)) as P22.
    assert (Pa : 0 < to_Q V) by (apply pos_finite_pos; exact PV).
    set (a := to_Q V) in *.
    apply (approx_eq _ _ (q * a)); [change (inject_Z 1) with 1; ring|].
    assert (G1 : 0 <= (q - (1 # 16)) * a) by (apply Qmult_le_0_compat; lra).
    assert (G2 : 0 <= ((1 # 2) - q) * a) by (apply Qmult_le_0_compat; lra).
    assert (F1 : (q - (1 # 16)) * a == q * a - (1 # 16) * a) by ring.
    assert (F2 : ((1 # 2) - q) * a == (1 # 2) * a - q * a) by ring.
    apply approx_mul; try assumption.
    + fold a. lra.
    + fold a. rewrite Ev. lra.
Qed.

Lemma weight_8 :
  Prim2SF (B64.of_int 0 * (B64.of_int 8 / B64.of_int 16))%float = S754_zero false /\
  (B64.of_int 1 * (B64.of_int 8 / B64.of_int 16))%float
    = (B64.of_int 8 / B64.of_int 16)%float /\
  pos_finite (Prim2SF (B64.of_int 8 / B64.of_int 16)%float) /\
  to_Q (B64.of_int 8 / B64.of_int 16)%float == 8 # 16.
Proof.
  repeat split; try reflexivity.
  eexists _, _. split; reflexivity.
Qed.

Lemma weight_4 :
  Prim2SF (B64.of_int 0 * (B64.of_int 4 / B64.of_int 16))%float = S754_zero false /\
  (B64.of_int 1 * (B64.of_int 4 / B64.of_int 16))%float
    = (B64.of_int 4 / B64.of_int 16)%float /\
  pos_finite (Prim2SF (B64.of_int 4 / B64.of_int 16)%float) /\
  to_Q (B64.of_int 4 / B64.of_int 16)%float == 4 # 16.
Proof.
  repeat split; try reflexivity.
  eexists _, _. split; reflexivity.
Qed.

Lemma weight_2 :
  Prim2SF (B64.of_int 0 * (B64.of_int 2 / B64.of_int 16))%float = S754_zero false /\
  (B64.of_int 1 * (B64.of_int 2 / B64.of_int 16))%float
    = (B64.of_int 2 / B64.of_int 16)%float /\
  pos_finite (Prim2SF (B64.of_int 2 / B64.of_int 16)%float) /\
  to_Q (B64.of_int 2 / B64.of_int 16)%float == 2 # 16.
Proof.
  repeat split; try reflexivity.
  eexists _, _. split; reflexivity.
Qed.

Lemma weight_1 :
  Prim2SF (B64.of_int 0 * (B64.of_int 1 / B64.of_int 16))%float = S754_zero false /\
  (B64.of_int 1 * (B64.of_int 1 / B64.of_int 16))%float
    = (B64.of_int 1 / B64.of_int 16)%float /\
  pos_finite (Prim2SF (B64.of_int 1 / B64.of_int 16)%float) /\
  to_Q (B64.of_int 1 / B64.of_int 16)%float == 1 # 16.
Proof.
  repeat split; try reflexivity.
  eexists _, _. split; reflexivity.
Qed.

(** On a normal reference voltage the binary64 DAC returns the exact
    weighted sum up to a relative error of [7 * eps]. *)
Lemma dac_b64_approx (b : string) (V : float) :
  valid_code b ->
  pos_finite (Prim2SF V) -> pow2 (-1018) <= to_Q V -> to_Q V < pow2 1024 ->
  exists v,
    B64.dac_output b V = Ok v /\
    approx (7 * eps) v (to_Q V * inject_Z (code_value b) / 16).
Proof.
  intros Hb PV Lo Hi.
  destruct (valid_code_inv b Hb) as (c3 & c2 & c1 & c0 & -> & H3 & H2 & H1 & H0).
  eexists. split; [apply dac_output_bits_b64; assumption|].
  destruct weight_8 as (A8 & B8 & C8 & D8). destruct weight_4 as (A4 & B4 & C4 & D4).
  destruct weight_2 as (A2 & B2 & C2 & D2). destruct weight_1 as (A1 & B1 & C1 & D1).
  pose proof (term_approx c3 (B64.of_int 8 / B64.of_int 16)%float V (8 # 16)
                H3 A8 B8 C8 D8 ltac:(lra)
                ltac:(lra) PV Lo Hi) as T3.
  pose proof (term_approx c2 (B64.of_int 4 / B64.of_int 16)%float V (4 # 16)
                H2 A4 B4 C4 D4 ltac:(lra)
                ltac:(lra) PV Lo Hi) as T2.
  pose proof (term_approx c1 (B64.of_int 2 / B64.of_int 16)%float V (2 # 16)
                H1 A2 B2 C2 D2 ltac:(lra)
                ltac:(lra) PV Lo Hi) as T1.
  pose proof (term_approx c0 (B64.of_int 1 / B64.of_int 16)%float V (1 # 16)
                H0 A1 B1 C1 D1 ltac:(lra)
                ltac:(lra) PV Lo Hi) as T0.
  assert (Pa : 0 < to_Q V) by (apply pos_finite_pos; exact PV).
  set (a := to_Q V) in *.
  pose proof (bit_value_range c3) as R3. pose proof (bit_value_range c2) as R2.
  pose proof (bit_value_range c1) as R1. pose proof (bit_value_range c0) as R0.
  set (k3 := inject_Z (bit_value c3)) in *. set (k2 := inject_Z (bit_value c2)) in *.
  set (k1 := inject_Z (bit_value c1)) in *. set (k0 := inject_Z (bit_value c0)) in *.
  assert (K3 : 0 <= k3 <= 1) by (split; [apply (inject_Z_le 0) | apply (inject_Z_le _ 1)]; lia).
  assert (K2 : 0 <= k2 <= 1) by (split; [apply (inject_Z_le 0) | apply (inject_Z_le _ 1)]; lia).
  assert (K1 : 0 <= k1 <= 1) by (split; [apply (inject_Z_le 0) | apply (inject_Z_le _ 1)]; lia).
  assert (K0 : 0 <= k0 <= 1) by (split; [apply (inject_Z_le 0) | apply (inject_Z_le _ 1)]; lia).
  set (X3 := k3 * (8 # 16) * a) in *. set (X2 := k2 * (4 # 16) * a) in *.
  set (X1 := k1 * (2 # 16) * a) in *. set (X0 := k0 * (1 # 16) * a) in *.
  assert (B3 : 0 <= X3 <= (8 # 16) * a).
  { assert (0 <= k3 * a) by (apply Qmult_le_0_compat; lra).
    assert (0 <= (1 - k3) * a) by (apply Qmult_le_0_compat; lra).
    assert ((1 - k3) * a == a - k3 * a) by ring.
    assert (X3 == (8 # 16) * (k3 * a)) by (unfold X3; ring). split; lra. }
  assert (B2' : 0 <= X2 <= (4 # 16) * a).
  { assert (0 <= k2 * a) by (apply Qmult_le_0_compat; lra).
    assert (0 <= (1 - k2) * a) by (apply Qmult_le_0_compat; lra).
    assert ((1 - k2) * a == a - k2 * a) by ring.
    assert (X2 == (4 # 16) * (k2 * a)) by (unfold X2; ring). split; lra. }
  assert (B1' : 0 <= X1 <= (2 # 16) * a).
  { assert (0 <= k1 * a) by (apply Qmult_le_0_compat; lra).
    assert (0 <= (1 - k1) * a) by (apply Qmult_le_0_compat; lra).
    assert ((1 - k1) * a == a - k1 * a) by ring.
    assert (X1 == (2 # 16) * (k1 * a)) by (unfold X1; ring). split; lra. }
  assert (B0' : 0 <= X0 <= (1 # 16) * a).
  { assert (0 <= k0 * a) by (apply Qmult_le_0_compat; lra).
    assert (0 <= (1 - k0) * a) by (apply Qmult_le_0_compat; lra).
    assert ((1 - k0) * a == a - k0 * a) by ring.
    assert (X0 == (1 # 16) * (k0 * a)) by (unfold X0; ring). split; lra. }
  assert (EX : X3 + X2 + X1 + X0 ==
               a * inject_Z (code_value
                   (String c3 (String c2 (String c1 (String c0 EmptyString))))) / 16).
  { rewrite code_value_bits.
    rewrite !inject_Z_plus, !inject_Z_mult. fold k3 k2 k1 k0.
    change (inject_Z 8) with 8. change (inject_Z 4) with 4.
    change (inject_Z 2) with 2.
    unfold X3, X2, X1, X0. field. }
  clearbody X3 X2 X1 X0.
  pose proof eps_value as Ev.
  unfold B64.sum. cbn [fold_left].
  (* 0 + t3 *)
  pose proof (approx_add_zero_l eps _ _ X3 Prim2SF_zero T3) as S3.
  (* + t2 *)
  pose proof (approx_add eps _ _ X3 X2 S3 T2 ltac:(lra) ltac:(lra) ltac:(lra)
                ltac:(rewrite Ev; lra)) as S2.
  (* + t1 *)
  pose proof (approx_add (eps + 2 * eps) _ _ (X3 + X2) X1 S2
                (approx_weaken eps (eps + 2 * eps) _ X1 ltac:(lra) ltac:(lra) T1)
                ltac:(lra) ltac:(lra) ltac:(lra) ltac:(rewrite Ev; lra)) as S1.
  (* + t0 *)
  pose proof (approx_add (eps + 2 * eps + 2 * eps) _ _ (X3 + X2 + X1) X0 S1
                (approx_weaken eps (eps + 2 * eps + 2 * eps) _ X0 ltac:(lra) ltac:(lra) T0)
                ltac:(lra) ltac:(lra) ltac:(lra) ltac:(rewrite Ev; lra)) as S0.
  apply (approx_eq _ _ (X3 + X2 + X1 + X0)); [exact EX|].
  apply (approx_weaken (eps + 2 * eps + 2 * eps + 2 * eps)); [lra | lra | exact S0].
Qed.

(** ** The binary64 ADC near a grid point *)

Lemma Prim2SF_16 :
  Prim2SF (B64.of_int 16) = S754_finite false 4503599627370496 (-48).
Proof. reflexivity. Qed.

Lemma div_by_16 (V : float) :
  B64.div V (B64.of_int (2 ^ 4)) = Ok (V / B64.of_int 16)%float.
Proof. reflexivity. Qed.

(** The quantisation step of a normal reference voltage. *)
Lemma step_normal (V : float) :
  pos_finite (Prim2SF V) -> pow2 (-1018) <= to_Q V -> to_Q V < pow2 1024 ->
  pos_finite (Prim2SF (V / B64.of_int 16)%float) /\
  to_Q V / 16 * (1 - eps) <= to_Q (V / B64.of_int 16)%float
    <= to_Q V / 16 * (1 + eps).
Proof.
  intros PV Lo Hi. unfold to_Q in *. rewrite FloatAxioms.div_spec.
  assert (P16 : pos_finite (Prim2SF (B64.of_int 16))).
  { rewrite Prim2SF_16. eexists _, _. split; reflexivity. }
  assert (E16 : B2Q (Prim2SF (B64.of_int 16)) == 16) by (vm_compute; reflexivity).
  pose proof eps_value as Ev. pose proof pow2_m1018 as E18.
  pose proof (pow2_pos (-1022)) as P22.
  set (a := B2Q (Prim2SF V)) in *.
  assert (ET : a / B2Q (Prim2SF (B64.of_int 16)) == a / 16) by (rewrite E16; reflexivity).
  assert (E' : a / 16 == a * (1 # 16)) by field.
  destruct (SF64div_rel (Prim2SF V) (Prim2SF (B64.of_int 16)) PV P16) as (Pr & _ & Br).
  - fold a. rewrite ET, E'. lra.
  - fold a. rewrite ET, E', Ev. lra.
  - fold a in Br. rewrite ET in Br. auto.
Qed.

Lemma pos_finite_nonzero (x : float) :
  pos_finite (Prim2SF x) -> PrimFloat.eqb x (B64.of_int 0) = false.
Proof.
  intros (m & e & H & _). rewrite FloatAxioms.eqb_spec, H. reflexivity.
Qed.

Lemma round_finite (q : float) (k : Z) :
  pos_finite (Prim2SF q) -> Qabs (to_Q q - inject_Z k) < 1 # 2 ->
  B64.round q = Ok k.
Proof.
  intros (m & e & H & _) N. unfold B64.round. rewrite H.
  f_equal. apply round_near. exact N.
Qed.

(** An input that approximates a grid voltage [V * k / 16] below the top of
    the range passes the guard. *)
Lemma grid_guard (v V : float) (k : Z) :
  pos_finite (Prim2SF V) -> (0 <= k <= 15)%Z ->
  approx (7 * eps) v (to_Q V * inject_Z k / 16) ->
  PrimFloat.ltb V v = false.
Proof.
  intros PV [K0 K15] Av.
  pose proof eps_value as Ev.
  assert (Pa : 0 < to_Q V) by (apply pos_finite_pos; exact PV).
  apply inject_Z_le in K0, K15.
  change (inject_Z 0) with 0 in K0. change (inject_Z 15) with 15 in K15.
  set (a := to_Q V) in *. set (K := inject_Z k) in *.
  assert (EA : a * K / 16 == a * (1 # 16) * K) by field.
  set (u := a * (1 # 16)) in *.
  assert (Pu : 0 < u) by (unfold u; lra).
  assert (W0 : 0 <= u * K) by (apply Qmult_le_0_compat; lra).
  assert (W1 : 0 <= (15 - K) * u) by (apply Qmult_le_0_compat; lra).
  assert (W2 : (15 - K) * u == 15 * u - u * K) by ring.
  destruct Av as [[ZA Hz] | (Pv & Nv & Bv0 & Bv1)].
  - destruct PV as (mV & eV & HV & _).
    rewrite FloatAxioms.ltb_spec, HV, Hz. reflexivity.
  - destruct (PrimFloat.ltb V v) eqn:L; [exfalso|reflexivity].
    rewrite FloatAxioms.ltb_spec in L.
    apply (SFltb_pos _ _ PV Pv) in L. fold (to_Q V) in L. fold (to_Q v) in L.
    fold a in L. rewrite EA, Ev in Bv1. unfold u in *. lra.
Qed.

(** An input that passes the guard and approximates the grid voltage
    [V * k / 16], [k <= 16], is quantised to [k]. *)
Lemma adc_b64_on_grid (v V : float) (k : Z) :
  pos_finite (Prim2SF V) -> pow2 (-1018) <= to_Q V -> to_Q V < pow2 1024 ->
  (0 <= k <= 16)%Z ->
  approx (7 * eps) v (to_Q V * inject_Z k / 16) ->
  PrimFloat.ltb V v = false ->
  B64.adc_output v V = Ok (Py.format_04b k).
Proof.
  intros PV Lo Hi [K0 K16] Av G.
  pose proof eps_value as Ev.
  assert (Pa : 0 < to_Q V) by (apply pos_finite_pos; exact PV).
  destruct (step_normal V PV Lo Hi) as (Pd & Bd0 & Bd1).
  apply inject_Z_le in K0, K16.
  change (inject_Z 0) with 0 in K0. change (inject_Z 16) with 16 in K16.
  set (a := to_Q V) in *. set (K := inject_Z k) in *.
  set (d := to_Q (V / B64.of_int 16)%float) in *.
  assert (EA : a * K / 16 == a / 16 * K) by field.
  set (u := a / 16) in *.
  assert (Eu : u == a * (1 # 16)) by (unfold u; field).
  assert (Pu : 0 < u) by lra.
  assert (W0 : 0 <= u * K) by (apply Qmult_le_0_compat; lra).
  unfold B64.adc_output, B64.gt. rewrite G.
  rewrite div_by_16. cbn [bind].
  unfold B64.div. rewrite (pos_finite_nonzero _ Pd). cbn [bind].
  destruct Av as [[ZA Hz] | (Pv & Nv & Bv0 & Bv1)].
  - (* the code 0000 *)
    assert (Zk : k = 0%Z).
    { rewrite EA in ZA.
      assert (K == 0).
      { destruct (Qeq_dec K 0) as [|N]; [assumption|exfalso].
        apply (Qmult_integral u K) in ZA. destruct ZA; [lra | contradiction]. }
      apply (proj1 (inject_Z_injective k 0)). exact H. }
    subst k.
    destruct Pd as (md & ed & Hd & _).
    assert (Hq : Prim2SF (v / (V / B64.of_int 16))%float = S754_zero false).
    { rewrite FloatAxioms.div_spec, Hz, Hd. reflexivity. }
    unfold B64.round, to_Q. rewrite Hq. reflexivity.
  - (* a code from 0001 on *)
    rewrite EA in Bv0, Bv1.
    set (sv := to_Q v) in *.
    pose proof (pow2_pos (-1022)) as P22.
    assert (Psv : 0 < sv) by lra.
    (* K >= 1 *)
    assert (K1 : 1 <= K).
    { assert (0 < K).
      { destruct (Qlt_le_dec 0 K) as [|N]; [assumption|exfalso].
        assert (K == 0) by lra.
        rewrite H in Bv1. rewrite Ev in Bv1. lra. }
      change 0 with (inject_Z 0) in H. unfold K in H. rewrite <- Zlt_Qlt in H.
      change 1 with (inject_Z 1). unfold K. apply inject_Z_le. lia. }
    (* the quotient of the two floats *)
    assert (Pdv : 0 < d) by (rewrite Ev in Bd0; lra).
    set (T := sv / d).
    assert (ET : T * d == sv) by (unfold T; field; lra).
    assert (PK : 0 < K) by lra.
    assert (KD0 : K * (u * (1 - eps)) <= K * d)
      by (apply (Qmult_le_l _ _ K PK); fold u in Bd0; exact Bd0).
    assert (KD1 : K * d <= K * (u * (1 + eps)))
      by (apply (Qmult_le_l _ _ K PK); fold u in Bd1; exact Bd1).
    rewrite Ev in KD0, KD1, Bv0, Bv1.
    assert (TU : T <= K * (1 + 9 * eps)).
    { apply (Qmult_le_r _ _ d Pdv). rewrite ET, Ev. lra. }
    assert (TL : K * (1 - 9 * eps) <= T).
    { apply (Qmult_le_r _ _ d Pdv). rewrite ET, Ev. lra. }
    rewrite Ev in TU, TL.
    assert (Half : pow2 (-1022) <= 1 # 2).
    { apply Qle_trans with (pow2 (-1)); [apply pow2_le; lia | apply Qle_refl]. }
    assert (Big : 32 <= pow2 1024).
    { apply Qle_trans with (pow2 5); [apply Qle_refl | apply pow2_le; lia]. }
    destruct (SF64div_rel (Prim2SF v) (Prim2SF (V / B64.of_int 16)%float) Pv Pd)
      as (Pq & _ & Bq0 & Bq1).
    + fold (to_Q v). fold (to_Q (V / B64.of_int 16)%float). fold sv d T. lra.
    + fold (to_Q v). fold (to_Q (V / B64.of_int 16)%float). fold sv d T.
      rewrite Ev. lra.
    + fold (to_Q v) in Bq0, Bq1.
      fold (to_Q (V / B64.of_int 16)%float) in Bq0, Bq1.
      fold sv d T in Bq0, Bq1. rewrite Ev in Bq0, Bq1.
      rewrite <- FloatAxioms.div_spec in Pq, Bq0, Bq1.
      fold (to_Q (v / (V / B64.of_int 16))%float) in Bq0, Bq1.
      rewrite (round_finite _ k Pq); [reflexivity|].
      apply Qabs_Qlt_condition. fold K. split; lra.
Qed.

(** ** Classes of floats *)

Lemma SFcompare_refl (x : spec_float) :
  x <> S754_nan -> SFcompare x x = Some Eq.
Proof.
  destruct x as [s|s| |s m e]; intros N; try congruence; cbn [SFcompare].
  - reflexivity.
  - destruct s; reflexivity.
  - rewrite Z.compare_refl.
    change (Pos.compare_cont Eq m m) with (Pos.compare m m).
    rewrite Pos.compare_refl. destruct s; reflexivity.
Qed.

Lemma is_nan_spec (x : float) :
  PrimFloat.is_nan x = true <-> Prim2SF x = S754_nan.
Proof.
  unfold PrimFloat.is_nan. rewrite FloatAxioms.eqb_spec. unfold SFeqb.
  destruct (Prim2SF x) as [s|s| |s m e] eqn:E.
  - cbn. split; discriminate.
  - rewrite SFcompare_refl by discriminate. cbn. split; discriminate.
  - cbn. split; reflexivity.
  - rewrite SFcompare_refl by discriminate. cbn. split; discriminate.
Qed.

Lemma is_infinity_spec (x : float) :
  PrimFloat.is_infinity x = true <-> exists s, Prim2SF x = S754_infinity s.
Proof.
  unfold PrimFloat.is_infinity.
  rewrite FloatAxioms.eqb_spec, FloatAxioms.abs_spec, Prim2SF_infinity.
  destruct (Prim2SF x) as [s|s| |s m e]; cbn.
  - split; [discriminate | intros [s' H]; discriminate].
  - split; [intros _; eexists; reflexivity | reflexivity].
  - split; [discriminate | intros [s' H]; discriminate].
  - split; [discriminate | intros [s' H]; discriminate].
Qed.

Lemma is_finite_spec (x : float) :
  PrimFloat.is_finite x = true <->
  (exists s, Prim2SF x = S754_zero s) \/
  (exists s m e, Prim2SF x = S754_finite s m e).
Proof.
  unfold PrimFloat.is_finite.
  rewrite negb_true_iff, orb_false_iff.
  pose proof (is_nan_spec x) as Hn. pose proof (is_infinity_spec x) as Hi.
  destruct (PrimFloat.is_nan x) eqn:En; destruct (PrimFloat.is_infinity x) eqn:Ei.
  - split; [intros [H _]; discriminate|].
    destruct Hn as [Hn _]. rewrite (Hn eq_refl).
    intros [[s H] | (s & m & e & H)]; discriminate.
  - split; [intros [H _]; discriminate|].
    destruct Hn as [Hn _]. rewrite (Hn eq_refl).
    intros [[s H] | (s & m & e & H)]; discriminate.
  - split; [intros [_ H]; discriminate|].
    destruct Hi as [Hi _]. destruct (Hi eq_refl) as [s' H']. rewrite H'.
    intros [[s H] | (s & m & e & H)]; discriminate.
  - split; [intros _ | auto].
    destruct (Prim2SF x) as [s|s| |s m e].
    + left. eexists. reflexivity.
    + exfalso. destruct Hi as [_ Hi].
      assert (false = true) by (apply Hi; eexists; reflexivity). discriminate.
    + exfalso. destruct Hn as [_ Hn].
      assert (false = true) by (apply Hn; reflexivity). discriminate.
    + right. eexists _, _, _. reflexivity.
Qed.

(** A rounding step on a non-negative mantissa never gives NaN. *)
Lemma bra_not_nan (s : bool) (mx ex : Z) (lx : location) :
  (0 <= mx)%Z -> binary_round_aux prec emax s mx ex lx <> S754_nan.
Proof.
  intros Hm. unfold binary_round_aux.
  destruct (shr_fexp_spec mx ex lx Hm) as (_ & M1 & _).
  destruct (shr_fexp prec emax mx ex lx) as [mrs' e'].
  cbn [fst] in M1.
  destruct (rne_spec (shr_m mrs') mrs') as [[B1 _] _].
  set (R := round_nearest_even (shr_m mrs') (loc_of_shr_record mrs')) in *.
  assert (H1 : (0 <= R)%Z).
  { apply Z.le_trans with (shr_m mrs'); [|exact B1].
    rewrite M1. apply Z.div_pos; [exact Hm | apply Z.pow_pos_nonneg; lia]. }
  destruct (shr_fexp_spec R e' loc_Exact H1) as (_ & M2 & _).
  destruct (shr_fexp prec emax R e' loc_Exact) as [mrs'' e''].
  cbn [fst] in M2.
  assert (H2 : (0 <= shr_m mrs'')%Z).
  { rewrite M2. apply Z.div_pos; [exact H1 | apply Z.pow_pos_nonneg; lia]. }
  destruct (shr_m mrs'') as [|p|p]; [discriminate | | lia].
  destruct (e'' <=? emax - prec)%Z; discriminate.
Qed.

(** Dividing a finite float by a finite non-zero float never gives NaN. *)
Lemma SF64div_not_nan (x y : spec_float) :
  ((exists s, x = S754_zero s) \/ (exists s m e, x = S754_finite s m e)) ->
  (exists s m e, y = S754_finite s m e) ->
  SF64div x y <> S754_nan.
Proof.
  intros [[sx ->] | (sx & mx & ex & ->)] (sy & my & ey & ->);
    unfold SF64div, SFdiv; [discriminate|].
  unfold SFdiv_core_binary.
  set (m' := match (ex - ey - _)%Z with
             | 0%Z => Z.pos mx | Z.pos _ => _ | Z.neg _ => 0%Z end).
  assert (Hm' : (0 <= m')%Z).
  { unfold m'. destruct (ex - ey - _)%Z; try lia. apply Z.shiftl_nonneg. lia. }
  clearbody m'.
  pose proof (Z_div_mod m' (Z.pos my) ltac:(lia)) as DM.
  destruct (Z.div_eucl m' (Z.pos my)) as [q r]. destruct DM as [DM Rr].
  apply bra_not_nan. nia.
Qed.

(** * The specification's claims, on binary64 *)

(** C3, as stated, fails on the code: at the smallest positive reference
    voltage, 2^-1074, every product of the DAC underflows to 0.0 and the
    step [V_ref / 16] underflows to 0.0, so the ADC raises
    [ZeroDivisionError] instead of returning the code. *)
Lemma round_trip_fails_on_subnormal :
  valid_code "1111" /\ (0 <? 0x1p-1074)%float = true /\
  B64.dac_output "1111" 0x1p-1074 = Ok 0%float /\
  B64.adc_output 0 0x1p-1074 = Raise (ZeroDivisionError "float division by zero").
Proof.
  split; [valid_code_tac|]. repeat split; reflexivity.
Qed.

Example round_trip_wrong_code_on_subnormal :
  B64.dac_output "1111" 0x18p-1074 = Ok 0x17p-1074%float /\
  B64.adc_output 0x17p-1074 0x18p-1074 = Ok "1100".
Proof. split; reflexivity. Qed.

(** C3, amended.  For every valid 4-bit code [b] and every finite binary64
    reference voltage [V >= 2^-1018], the DAC returns a voltage on which the
    ADC returns [b] again. *)
Theorem round_trip_b64 (b : string) (V : float) :
  valid_code b ->
  (0x1p-1018 <=? V)%float = true -> (V <? infinity)%float = true ->
  exists v, B64.dac_output b V = Ok v /\ B64.adc_output v V = Ok b.
Proof.
  intros Hb Lo Hi.
  destruct (reference_normal V Lo Hi) as (PV & L & U).
  destruct (dac_b64_approx b V Hb PV L U) as (v & Hd & Av).
  exists v. split; [exact Hd|].
  pose proof (code_value_range b Hb) as R.
  rewrite (adc_b64_on_grid v V (code_value b) PV L U ltac:(lia) Av
             (grid_guard v V (code_value b) PV R Av)).
  rewrite (format_code_value b Hb). reflexivity.
Qed.

Lemma round_trip_b64_witness :
  valid_code "1111" /\
  (0x1p-1018 <=? 0.1)%float = true /\ (0.1 <? infinity)%float = true /\
  exists v, B64.dac_output "1111" 0.1 = Ok v /\ B64.adc_output v 0.1 = Ok "1111".
Proof.
  assert (Hb : valid_code "1111") by valid_code_tac.
  assert (Lo : (0x1p-1018 <=? 0.1)%float = true) by reflexivity.
  assert (Hi : (0.1 <? infinity)%float = true) by reflexivity.
  split; [exact Hb|]. split; [exact Lo|]. split; [exact Hi|].
  exact (round_trip_b64 "1111" 0.1 Hb Lo Hi).
Defined.

Lemma bits_code_value (b : string) :
  valid_code b ->
  inject_Z (bit_at b 0) * 8 + inject_Z (bit_at b 1) * 4
    + inject_Z (bit_at b 2) * 2 + inject_Z (bit_at b 3) * 1
  == inject_Z (code_value b).
Proof.
  intros Hb.
  destruct (valid_code_inv b Hb) as (c3 & c2 & c1 & c0 & -> & _).
  rewrite code_value_bits. unfold bit_at. cbn [String.get].
  rewrite !inject_Z_plus, !inject_Z_mult.
  change (inject_Z 8) with 8. change (inject_Z 4) with 4.
  change (inject_Z 2) with 2. ring.
Qed.

(** C4, as stated, fails on the code: the DAC adds four rounded products,
    and at [V = 0.1] the sum for "1111" is the double 0.09375000000000001,
    not the real number 0.1 * 15 / 16 (taking 0.1 as the double it is). *)
Lemma weighted_sum_inexact_at_0_1 :
  valid_code "1111" /\ (0 <? 0.1)%float = true /\
  exists v,
    B64.dac_output "1111" 0.1 = Ok v /\
    ~ to_Q v ==
      to_Q 0.1 * (inject_Z (bit_at "1111" 0) * 8 + inject_Z (bit_at "1111" 1) * 4
                  + inject_Z (bit_at "1111" 2) * 2 + inject_Z (bit_at "1111" 3) * 1)
      / 16.
Proof.
  split; [valid_code_tac|]. split; [reflexivity|].
  eexists. split; [reflexivity|].
  intros H. vm_compute in H. discriminate H.
Qed.

(** C4, amended.  For every valid 4-bit code [b] with bits b3 b2 b1 b0 and
    every finite binary64 reference voltage [V >= 2^-1018], [dac_output]
    returns a finite double within the relative error 2^-49 of
    V * (b3*8 + b2*4 + b1*2 + b0*1) / 16. *)
Theorem dac_output_weighted_sum_b64 (b : string) (V : float) :
  valid_code b ->
  (0x1p-1018 <=? V)%float = true -> (V <? infinity)%float = true ->
  exists v,
    B64.dac_output b V = Ok v /\ PrimFloat.is_finite v = true /\
    Qabs (to_Q v
          - to_Q V * (inject_Z (bit_at b 0) * 8 + inject_Z (bit_at b 1) * 4
                      + inject_Z (bit_at b 2) * 2 + inject_Z (bit_at b 3) * 1) / 16)
    <= to_Q V * (inject_Z (bit_at b 0) * 8 + inject_Z (bit_at b 1) * 4
                 + inject_Z (bit_at b 2) * 2 + inject_Z (bit_at b 3) * 1) / 16
       * pow2 (-49).
Proof.
  intros Hb Lo Hi.
  destruct (reference_normal V Lo Hi) as (PV & L & U).
  destruct (dac_b64_approx b V Hb PV L U) as (v & Hd & Av).
  exists v. split; [exact Hd|].
  rewrite (bits_code_value b Hb).
  pose proof (code_value_range b Hb) as [R0 _].
  apply inject_Z_le in R0. change (inject_Z 0) with 0 in R0.
  assert (Pa : 0 < to_Q V) by (apply pos_finite_pos; exact PV).
  set (A := to_Q V * inject_Z (code_value b) / 16) in *.
  assert (HA : 0 <= A).
  { unfold A.
    assert (0 <= to_Q V * inject_Z (code_value b)) by (apply Qmult_le_0_compat; lra).
    assert (E : to_Q V * inject_Z (code_value b) / 16
                == to_Q V * inject_Z (code_value b) * (1 # 16)) by field.
    rewrite E. lra. }
  assert (E49 : pow2 (-49) == 8 * eps) by (vm_compute; reflexivity).
  pose proof eps_value as Ev.
  destruct Av as [[ZA Hz] | ((m & e & Hv & Bd) & _ & B0 & B1)].
  - split; [apply is_finite_spec; left; eexists; exact Hz|].
    unfold to_Q at 1. rewrite Hz. cbn [B2Q]. rewrite ZA.
    vm_compute. discriminate.
  - split; [apply is_finite_spec; right; eexists _, _, _; exact Hv|].
    rewrite E49. apply Qabs_within.
    assert (F0 : A * (1 - 7 * eps) == A - A * (7 * eps)) by ring.
    assert (F1 : A * (1 + 7 * eps) == A + A * (7 * eps)) by ring.
    assert (F2 : A * (8 * eps) == A * (7 * eps) + A * eps) by ring.
    assert (F3 : 0 <= A * eps) by (apply Qmult_le_0_compat; lra).
    split; lra.
Qed.

Lemma dac_output_weighted_sum_b64_witness :
  valid_code "1111" /\
  (0x1p-1018 <=? 0.1)%float = true /\ (0.1 <? infinity)%float = true /\
  exists v,
    B64.dac_output "1111" 0.1 = Ok v /\ PrimFloat.is_finite v = true /\
    Qabs (to_Q v
          - to_Q 0.1 * (inject_Z (bit_at "1111" 0) * 8
                        + inject_Z (bit_at "1111" 1) * 4
                        + inject_Z (bit_at "1111" 2) * 2
                        + inject_Z (bit_at "1111" 3) * 1) / 16)
    <= to_Q 0.1 * (inject_Z (bit_at "1111" 0) * 8
                   + inject_Z (bit_at "1111" 1) * 4
                   + inject_Z (bit_at "1111" 2) * 2
                   + inject_Z (bit_at "1111" 3) * 1) / 16
       * pow2 (-49).
Proof.
  assert (Hb : valid_code "1111") by valid_code_tac.
  assert (Lo : (0x1p-1018 <=? 0.1)%float = true) by reflexivity.
  assert (Hi : (0.1 <? infinity)%float = true) by reflexivity.
  split; [exact Hb|]. split; [exact Lo|]. split; [exact Hi|].
  exact (dac_output_weighted_sum_b64 "1111" 0.1 Hb Lo Hi).
Defined.

(** ** How the binary64 ADC can end *)

Lemma eqb_zero_spec (x : float) :
  PrimFloat.eqb x (B64.of_int 0) = true <-> exists s, Prim2SF x = S754_zero s.
Proof.
  rewrite FloatAxioms.eqb_spec, Prim2SF_zero.
  destruct (Prim2SF x) as [s|s| |s m e]; cbn.
  - split; [intros _; eexists; reflexivity | reflexivity].
  - destruct s; split; try discriminate; intros [s' H]; discriminate.
  - split; [discriminate | intros [s' H]; discriminate].
  - destruct s; split; try discriminate; intros [s' H]; discriminate.
Qed.

Lemma Prim2SF_finite_16 :
  exists s m e, Prim2SF (B64.of_int 16) = S754_finite s m e.
Proof. rewrite Prim2SF_16. eexists _, _, _. reflexivity. Qed.

(** The quotient of a finite input by a non-zero step of a finite reference
    is never NaN. *)
Lemma quotient_not_nan (V_in V_ref : float) :
  PrimFloat.is_finite V_in = true -> PrimFloat.is_finite V_ref = true ->
  PrimFloat.eqb (V_ref / B64.of_int 16) (B64.of_int 0) = false ->
  Prim2SF (V_in / (V_ref / B64.of_int 16))%float <> S754_nan.
Proof.
  intros Fi Fr Nz.
  apply is_finite_spec in Fi, Fr.
  pose proof (SF64div_not_nan _ _ Fr Prim2SF_finite_16) as Hs.
  rewrite <- FloatAxioms.div_spec in Hs.
  rewrite FloatAxioms.div_spec.
  destruct (Prim2SF (V_ref / B64.of_int 16)%float) as [s|s| |s m e] eqn:Es.
  - exfalso. assert (T : PrimFloat.eqb (V_ref / B64.of_int 16) (B64.of_int 0) = true)
      by (apply eqb_zero_spec; eexists; exact Es).
    congruence.
  - destruct Fi as [[si ->] | (si & mi & ei & ->)]; discriminate.
  - congruence.
  - apply SF64div_not_nan; [exact Fi | eexists _, _, _; reflexivity].
Qed.

(** C6, as stated, fails on the code: a negative input that passes the
    guard can make the call raise.  With [V_ref = 0] the step is 0.0 and the
    division raises [ZeroDivisionError]; with the positive [V_ref = 2^-1074]
    the step underflows to 0.0, with the same end; with [V_in = -2^1000] and
    [V_ref = 2^-1000] the quotient overflows and [round] raises
    [OverflowError]. *)
Lemma negative_input_can_raise :
  (-1 <? 0)%float = true /\
  B64.adc_output (-1) 0
    = Raise (ZeroDivisionError "float division by zero") /\
  (0 <? 0x1p-1074)%float = true /\
  B64.adc_output (-1) 0x1p-1074
    = Raise (ZeroDivisionError "float division by zero") /\
  (-0x1p1000 <? 0)%float = true /\ (0 <? 0x1p-1000)%float = true /\
  B64.adc_output (-0x1p1000) 0x1p-1000
    = Raise (OverflowError "cannot convert float infinity to integer").
Proof. repeat split; reflexivity. Qed.

(** C6, amended.  For finite inputs, [adc_output] raises the
    invalid-argument error exactly when [V_in > V_ref].  When
    [V_in <= V_ref], negative inputs included, the call is never rejected as
    an invalid argument: it raises [ZeroDivisionError] when the step
    [V_ref / 16] is zero, [OverflowError] when the quotient is infinite, and
    returns the formatted rounded quotient otherwise. *)
Theorem adc_output_raises_iff_b64 (V_in V_ref : float) :
  PrimFloat.is_finite V_in = true -> PrimFloat.is_finite V_ref = true ->
  (is_value_error (B64.adc_output V_in V_ref) <-> (V_ref <? V_in)%float = true) /\
  ((V_ref <? V_in)%float = false ->
   (PrimFloat.eqb (V_ref / B64.of_int 16) (B64.of_int 0) = true /\
    B64.adc_output V_in V_ref
      = Raise (ZeroDivisionError "float division by zero")) \/
   (PrimFloat.eqb (V_ref / B64.of_int 16) (B64.of_int 0) = false /\
    PrimFloat.is_infinity (V_in / (V_ref / B64.of_int 16)) = true /\
    B64.adc_output V_in V_ref
      = Raise (OverflowError "cannot convert float infinity to integer")) \/
   (PrimFloat.eqb (V_ref / B64.of_int 16) (B64.of_int 0) = false /\
    PrimFloat.is_finite (V_in / (V_ref / B64.of_int 16)) = true /\
    B64.adc_output V_in V_ref
      = Ok (Py.format_04b (Py.round (to_Q (V_in / (V_ref / B64.of_int 16))))))).
Proof.
  intros Fi Fr.
  unfold B64.adc_output, B64.gt.
  destruct (V_ref <? V_in)%float eqn:G.
  - split; [|discriminate].
    split; [reflexivity | intros _; eexists; reflexivity].
  - rewrite div_by_16. cbn [bind]. unfold B64.div.
    destruct (PrimFloat.eqb (V_ref / B64.of_int 16) (B64.of_int 0)) eqn:Z.
    + cbn [bind]. split.
      * split; [intros [msg E]; discriminate | discriminate].
      * intros _. left. auto.
    + cbn [bind].
      pose proof (quotient_not_nan V_in V_ref Fi Fr Z) as NN.
      unfold B64.round.
      destruct (Prim2SF (V_in / (V_ref / B64.of_int 16))%float)
        as [s|s| |s m e] eqn:Eq; [| |congruence|]; cbn [bind].
      * split; [split; [intros [msg E]; discriminate | discriminate]|].
        intros _. right. right. split; [reflexivity|]. split; [|reflexivity].
        apply is_finite_spec. left. eexists. exact Eq.
      * split; [split; [intros [msg E]; discriminate | discriminate]|].
        intros _. right. left. split; [reflexivity|]. split; [|reflexivity].
        apply is_infinity_spec. eexists. exact Eq.
      * split; [split; [intros [msg E]; discriminate | discriminate]|].
        intros _. right. right. split; [reflexivity|]. split; [|reflexivity].
        apply is_finite_spec. right. eexists _, _, _. exact Eq.
Qed.

Lemma adc_output_raises_iff_b64_witness :
  PrimFloat.is_finite (-1) = true /\ PrimFloat.is_finite 5 = true /\
  (is_value_error (B64.adc_output (-1) 5) <-> (5 <? -1)%float = true) /\
  ((5 <? -1)%float = false ->
   (PrimFloat.eqb (5 / B64.of_int 16) (B64.of_int 0) = true /\
    B64.adc_output (-1) 5
      = Raise (ZeroDivisionError "float division by zero")) \/
   (PrimFloat.eqb (5 / B64.of_int 16) (B64.of_int 0) = false /\
    PrimFloat.is_infinity (-1 / (5 / B64.of_int 16)) = true /\
    B64.adc_output (-1) 5
      = Raise (OverflowError "cannot convert float infinity to integer")) \/
   (PrimFloat.eqb (5 / B64.of_int 16) (B64.of_int 0) = false /\
    PrimFloat.is_finite (-1 / (5 / B64.of_int 16)) = true /\
    B64.adc_output (-1) 5
      = Ok (Py.format_04b (Py.round (to_Q (-1 / (5 / B64.of_int 16))))))).
Proof.
  assert (Fi : PrimFloat.is_finite (-1) = true) by reflexivity.
  assert (Fr : PrimFloat.is_finite 5 = true) by reflexivity.
  split; [exact Fi|]. split; [exact Fr|].
  exact (adc_output_raises_iff_b64 (-1) 5 Fi Fr).
Defined.

(** C7, as stated, fails on the code: the integer is the rounding of the
    binary64 quotient, not of the real quotient.  At [V_in = 0.75],
    [V_ref = 1.6] the real quotient of the two doubles by the real step is
    below 7.5 and rounds to 7 ("0111"), while the binary64 quotient is
    exactly 7.5, the tie goes to the even 8, and the code returns "1000". *)
Lemma rounds_float_quotient_not_real :
  (1.6 <? 0.75)%float = false /\
  B64.adc_output 0.75 1.6 = Ok "1000" /\
  round_half_even (to_Q 0.75 / (to_Q 1.6 / 16)) 7 /\
  Py.format_04b 7 <> "1000".
Proof.
  split; [reflexivity|]. split; [reflexivity|]. split; [|discriminate].
  split.
  - vm_compute. discriminate.
  - intros H. exfalso. vm_compute in H. discriminate H.
Qed.

(** C7, amended.  When [V_in <= V_ref], the step [V_ref / 16] is not zero
    and the binary64 quotient [V_in / (V_ref / 16)] is finite, the digital
    value that [adc_output] formats is that binary64 quotient rounded to the
    nearest integer, ties to even; it is the only integer the rounding rule
    allows. *)
Theorem adc_output_rounds_half_even_b64 (V_in V_ref : float) :
  (V_ref <? V_in)%float = false ->
  PrimFloat.eqb (V_ref / B64.of_int 16) (B64.of_int 0) = false ->
  PrimFloat.is_finite (V_in / (V_ref / B64.of_int 16)) = true ->
  exists n,
    B64.adc_output V_in V_ref = Ok (Py.format_04b n) /\
    round_half_even (to_Q (V_in / (V_ref / B64.of_int 16))) n /\
    forall m, round_half_even (to_Q (V_in / (V_ref / B64.of_int 16))) m -> m = n.
Proof.
  intros G Z Fq.
  exists (Py.round (to_Q (V_in / (V_ref / B64.of_int 16)))).
  split; [|split].
  - unfold B64.adc_output, B64.gt. rewrite G, div_by_16. cbn [bind].
    unfold B64.div. rewrite Z. cbn [bind]. unfold B64.round.
    apply is_finite_spec in Fq.
    destruct Fq as [[s E] | (s & m & e & E)]; rewrite E; reflexivity.
  - apply round_is_half_even.
  - intros m Hm.
    exact (round_half_even_unique _ _ _ Hm (round_is_half_even _)).
Qed.

Lemma adc_output_rounds_half_even_b64_witness :
  (1.6 <? 0.75)%float = false /\
  PrimFloat.eqb (1.6 / B64.of_int 16) (B64.of_int 0) = false /\
  PrimFloat.is_finite (0.75 / (1.6 / B64.of_int 16)) = true /\
  exists n,
    B64.adc_output 0.75 1.6 = Ok (Py.format_04b n) /\
    round_half_even (to_Q (0.75 / (1.6 / B64.of_int 16))) n /\
    forall m, round_half_even (to_Q (0.75 / (1.6 / B64.of_int 16))) m -> m = n.
Proof.
  assert (G : (1.6 <? 0.75)%float = false) by reflexivity.
  assert (Z : PrimFloat.eqb (1.6 / B64.of_int 16) (B64.of_int 0) = false)
    by reflexivity.
  assert (Fq : PrimFloat.is_finite (0.75 / (1.6 / B64.of_int 16)) = true)
    by reflexivity.
  split; [exact G|]. split; [exact Z|]. split; [exact Fq|].
  exact (adc_output_rounds_half_even_b64 0.75 1.6 G Z Fq).
Defined.

(** C9, as stated, fails on the code: at [V_ref = 2^-1074 > 0] the step
    [V_ref / 16] underflows to 0.0 and [adc_output(0, V_ref)] raises
    [ZeroDivisionError]. *)
Lemma zero_input_raises_on_subnormal :
  (0 <? 0x1p-1074)%float = true /\
  B64.adc_output 0 0x1p-1074 = Raise (ZeroDivisionError "float division by zero").
Proof. split; reflexivity. Qed.

(** C9, amended.  For every reference voltage [V_ref > 0],
    [adc_output(0, V_ref)] returns "0000" unless the step [V_ref / 16] is
    rounded to zero, and then it raises [ZeroDivisionError]; the step is not
    zero for any finite [V_ref >= 2^-1018]. *)
Theorem adc_output_zero_b64 (V_ref : float) :
  (0 <? V_ref)%float = true ->
  B64.adc_output 0 V_ref =
    (if PrimFloat.eqb (V_ref / B64.of_int 16) (B64.of_int 0)
     then Raise (ZeroDivisionError "float division by zero")
     else Ok "0000") /\
  ((0x1p-1018 <=? V_ref)%float = true -> (V_ref <? infinity)%float = true ->
   B64.adc_output 0 V_ref = Ok "0000").
Proof.
  intros Pos.
  assert (Main : B64.adc_output 0 V_ref =
    (if PrimFloat.eqb (V_ref / B64.of_int 16) (B64.of_int 0)
     then Raise (ZeroDivisionError "float division by zero")
     else Ok "0000")).
  { unfold B64.adc_output, B64.gt.
    assert (G : (V_ref <? 0)%float = false).
    { rewrite FloatAxioms.ltb_spec in Pos |- *.
      change (Prim2SF 0) with (S754_zero false) in *.
      destruct (Prim2SF V_ref) as [s|s| |s m e]; try discriminate Pos.
      - destruct s; [discriminate Pos | reflexivity].
      - destruct s; [discriminate Pos | reflexivity]. }
    rewrite G, div_by_16. cbn [bind]. unfold B64.div.
    destruct (PrimFloat.eqb (V_ref / B64.of_int 16) (B64.of_int 0)) eqn:Z;
      [reflexivity|]. cbn [bind].
    assert (Hq : exists s, Prim2SF (0 / (V_ref / B64.of_int 16))%float = S754_zero s).
    { rewrite FloatAxioms.div_spec.
      change (Prim2SF 0) with (S754_zero false).
      assert (NS : Prim2SF (V_ref / B64.of_int 16)%float <> S754_nan).
      { rewrite FloatAxioms.div_spec.
        rewrite FloatAxioms.ltb_spec in Pos.
        change (Prim2SF 0) with (S754_zero false) in Pos.
        destruct (Prim2SF V_ref) as [s|s| |s m e]; try discriminate Pos.
        - rewrite Prim2SF_16. discriminate.
        - apply SF64div_not_nan;
            [right; eexists _, _, _; reflexivity | exact Prim2SF_finite_16]. }
      destruct (Prim2SF (V_ref / B64.of_int 16)%float) as [s|s| |s m e] eqn:Es.
      - exfalso.
        assert (T : PrimFloat.eqb (V_ref / B64.of_int 16) (B64.of_int 0) = true)
          by (apply eqb_zero_spec; eexists; exact Es).
        congruence.
      - eexists. reflexivity.
      - congruence.
      - eexists. reflexivity. }
    destruct Hq as [s Hq]. unfold B64.round, to_Q. rewrite Hq. reflexivity. }
  split; [exact Main|].
  intros Lo Hi. rewrite Main.
  destruct (reference_normal V_ref Lo Hi) as (PV & L & U).
  destruct (step_normal V_ref PV L U) as (Pd & _).
  rewrite (pos_finite_nonzero _ Pd). reflexivity.
Qed.

Lemma adc_output_zero_b64_witness :
  (0 <? 5)%float = true /\
  B64.adc_output 0 5 =
    (if PrimFloat.eqb (5 / B64.of_int 16) (B64.of_int 0)
     then Raise (ZeroDivisionError "float division by zero")
     else Ok "0000") /\
  ((0x1p-1018 <=? 5)%float = true -> (5 <? infinity)%float = true ->
   B64.adc_output 0 5 = Ok "0000").
Proof.
  assert (Pos : (0 <? 5)%float = true) by reflexivity.
  split; [exact Pos | exact (adc_output_zero_b64 5 Pos)].
Defined.

(** * Further properties of the binary64 converters *)

(** ** The notebook's demonstration runs, on binary64 *)

Example dac_1010_b64 : B64.dac_output "1010" 5 = Ok 3.125%float.
Proof. reflexivity. Qed.

Example dac_0101_b64 : B64.dac_output "0101" 5 = Ok 1.5625%float.
Proof. reflexivity. Qed.

Example dac_1111_b64 : B64.dac_output "1111" 5 = Ok 4.6875%float.
Proof. reflexivity. Qed.

Example dac_0000_b64 : B64.dac_output "0000" 5 = Ok 0%float.
Proof. reflexivity. Qed.

Example adc_3_12_b64 : B64.adc_output 3.12 5 = Ok "1010".
Proof. reflexivity. Qed.

Example adc_1_56_b64 : B64.adc_output 1.56 5 = Ok "0101".
Proof. reflexivity. Qed.

Example adc_4_69_b64 : B64.adc_output 4.69 5 = Ok "1111".
Proof. reflexivity. Qed.

Example adc_0_00_b64 : B64.adc_output 0 5 = Ok "0000".
Proof. reflexivity. Qed.

Example adc_full_scale_b64 : B64.adc_output 5 5 = Ok "10000".
Proof. reflexivity. Qed.

Example adc_negative_input_b64 : B64.adc_output (-1) 5 = Ok "-011".
Proof. reflexivity. Qed.

Example adc_inside_top_band_b64 : B64.adc_output 1.55 1.6 = Ok "10000".
Proof. reflexivity. Qed.

(** ** Helpers *)

Lemma ltb_irrefl (x : float) : PrimFloat.ltb x x = false.
Proof.
  rewrite FloatAxioms.ltb_spec. unfold SFltb.
  destruct (Prim2SF x) as [s|s| |s m e] eqn:E.
  - reflexivity.
  - rewrite SFcompare_refl by discriminate. reflexivity.
  - reflexivity.
  - rewrite SFcompare_refl by discriminate. reflexivity.
Qed.

Lemma normal_above_min (V : float) :
  pow2 (-1018) <= to_Q V -> pow2 (-1022) <= to_Q V.
Proof.
  intros L. pose proof pow2_m1018 as E. pose proof (pow2_pos (-1022)). lra.
Qed.

(** On a normal reference voltage, the DAC's outputs for two codes are in
    the order of the codes' values. *)
Lemma dac_b64_lt (V v v' : float) (k k' : Z) :
  pos_finite (Prim2SF V) ->
  (0 <= k)%Z -> (k < k')%Z -> (k' <= 15)%Z ->
  approx (7 * eps) v (to_Q V * inject_Z k / 16) ->
  approx (7 * eps) v' (to_Q V * inject_Z k' / 16) ->
  PrimFloat.ltb v v' = true.
Proof.
  intros PV K0 Klt K15 Av Av'.
  pose proof eps_value as Ev.
  assert (Pa : 0 < to_Q V) by (apply pos_finite_pos; exact PV).
  assert (K1 : (k + 1 <= k')%Z) by lia.
  apply inject_Z_le in K0, K1, K15. rewrite inject_Z_plus in K1.
  change (inject_Z 0) with 0 in K0. change (inject_Z 1) with 1 in K1.
  change (inject_Z 15) with 15 in K15.
  set (a := to_Q V) in *. set (K := inject_Z k) in *. set (K' := inject_Z k') in *.
  assert (EA : a * K / 16 == a * (1 # 16) * K) by field.
  assert (EA' : a * K' / 16 == a * (1 # 16) * K') by field.
  set (u := a * (1 # 16)) in *.
  assert (Pu : 0 < u) by (unfold u; lra).
  assert (PK' : 0 < u * K') by (apply Qmult_lt_0_compat; lra).
  pose proof (pow2_pos (-1022)) as P22.
  destruct Av' as [[Z' _] | (Pv' & Nv' & B0' & B1')].
  { exfalso. rewrite EA' in Z'. lra. }
  destruct Av as [[_ Hz] | (Pv & Nv & B0 & B1)].
  - destruct Pv' as (m' & e' & Hv' & _).
    rewrite FloatAxioms.ltb_spec, Hz, Hv'. reflexivity.
  - rewrite FloatAxioms.ltb_spec. apply (SFltb_pos _ _ Pv Pv').
    fold (to_Q v). fold (to_Q v').
    rewrite EA in B1. rewrite EA' in B0'. rewrite Ev in B1, B0'.
    assert (G : 0 < u * (K' * (1 - 7 * (1 # 4503599627370496))
                         - K * (1 + 7 * (1 # 4503599627370496))))
      by (apply Qmult_lt_0_compat; lra).
    assert (G' : u * (K' * (1 - 7 * (1 # 4503599627370496))
                      - K * (1 + 7 * (1 # 4503599627370496)))
                 == u * K' * (1 - 7 * (1 # 4503599627370496))
                    - u * K * (1 + 7 * (1 # 4503599627370496))) by ring.
    lra.
Qed.

(** ** The DAC *)

(** X15.  On binary64 too, [dac_output] raises the invalid-argument error
    exactly when the input's length is not 4 or it holds a character other
    than 0 and 1, whatever float the reference voltage is (NaN and the
    infinities included); on a valid code it returns; it never ends any
    other way. *)
Theorem dac_output_raises_iff_b64 (b : string) (V : float) :
  (is_value_error (B64.dac_output b V) <->
   String.length b <> 4%nat \/
   exists c, In c (list_ascii_of_string b) /\ c <> "0"%char /\ c <> "1"%char) /\
  (valid_code b -> returns (B64.dac_output b V)) /\
  (returns (B64.dac_output b V) \/ is_value_error (B64.dac_output b V)).
Proof.
  assert (Hret : valid_code b -> returns (B64.dac_output b V)).
  { intros Hb.
    destruct (valid_code_inv b Hb) as (c3 & c2 & c1 & c0 & -> & H3 & H2 & H1 & H0).
    rewrite (dac_output_bits_b64 c3 c2 c1 c0 V H3 H2 H1 H0).
    eexists. reflexivity. }
  destruct (negb (Py.len b =? 4)%Z || negb (Py.issubset_01 b))%bool eqn:G.
  - assert (Herr : is_value_error (B64.dac_output b V)).
    { unfold B64.dac_output. rewrite G. eexists. reflexivity. }
    split; [|split; [exact Hret | right; exact Herr]].
    split; [intros _ | intros _; exact Herr].
    apply orb_true_iff in G. destruct G as [G|G]; apply negb_true_iff in G.
    + left. intros L. apply len_is_4 in L. congruence.
    + right. destruct (forallb_false_witness _ _ G) as (c & Hin & Hc).
      exists c. split; [exact Hin | apply is_01_false; exact Hc].
  - apply dac_guard_false in G.
    split; [|split; [exact Hret | left; exact (Hret G)]].
    split.
    + intros E. exfalso. exact (returns_not_value_error _ (Hret G) E).
    + destruct G as [L A]. intros [N | (c & Hin & N0 & N1)]; [contradiction|].
      rewrite Forall_forall in A. destruct (A c Hin); contradiction.
Qed.

Lemma dac_output_raises_iff_b64_witness :
  valid_code "0101" /\ returns (B64.dac_output "0101" nan).
Proof.
  assert (Hb : valid_code "0101") by valid_code_tac.
  split; [exact Hb|].
  exact (proj1 (proj2 (dac_output_raises_iff_b64 "0101" nan)) Hb).
Defined.

(** X12.  On binary64, for every valid code and every finite reference
    voltage [V_ref >= 2^-1018], the DAC's output is at least 0 and strictly
    below [V_ref]: the DAC never reaches its reference voltage. *)
Theorem dac_output_below_reference_b64 (b : string) (V_ref : float) :
  valid_code b ->
  (0x1p-1018 <=? V_ref)%float = true -> (V_ref <? infinity)%float = true ->
  exists v,
    B64.dac_output b V_ref = Ok v /\
    (0 <=? v)%float = true /\ (v <? V_ref)%float = true.
Proof.
  intros Hb Lo Hi.
  destruct (reference_normal V_ref Lo Hi) as (PV & L & U).
  destruct (dac_b64_approx b V_ref Hb PV L U) as (v & Hd & Av).
  exists v. split; [exact Hd|].
  pose proof (code_value_range b Hb) as [K0 K15].
  pose proof eps_value as Ev.
  assert (Pa : 0 < to_Q V_ref) by (apply pos_finite_pos; exact PV).
  apply inject_Z_le in K0, K15.
  change (inject_Z 0) with 0 in K0. change (inject_Z 15) with 15 in K15.
  set (a := to_Q V_ref) in *. set (K := inject_Z (code_value b)) in *.
  assert (EA : a * K / 16 == a * (1 # 16) * K) by field.
  set (u := a * (1 # 16)) in *.
  assert (Pu : 0 < u) by (unfold u; lra).
  assert (W0 : 0 <= u * K) by (apply Qmult_le_0_compat; lra).
  assert (W1 : 0 <= (15 - K) * u) by (apply Qmult_le_0_compat; lra).
  assert (W2 : (15 - K) * u == 15 * u - u * K) by ring.
  destruct Av as [[_ Hz] | (Pv & Nv & B0 & B1)].
  - destruct PV as (mV & eV & HV & _).
    rewrite FloatAxioms.leb_spec, FloatAxioms.ltb_spec, Hz, HV.
    split; reflexivity.
  - split.
    + destruct Pv as (m & e & Hv & _).
      rewrite FloatAxioms.leb_spec, Hv. reflexivity.
    + rewrite FloatAxioms.ltb_spec. apply (SFltb_pos _ _ Pv PV).
      fold (to_Q v). fold (to_Q V_ref). fold a.
      rewrite EA, Ev in B1. unfold u in *. lra.
Qed.

Lemma dac_output_below_reference_b64_witness :
  valid_code "1111" /\
  (0x1p-1018 <=? 0.1)%float = true /\ (0.1 <? infinity)%float = true /\
  exists v,
    B64.dac_output "1111" 0.1 = Ok v /\
    (0 <=? v)%float = true /\ (v <? 0.1)%float = true.
Proof.
  assert (Hb : valid_code "1111") by valid_code_tac.
  assert (Lo : (0x1p-1018 <=? 0.1)%float = true) by reflexivity.
  assert (Hi : (0.1 <? infinity)%float = true) by reflexivity.
  split; [exact Hb|]. split; [exact Lo|]. split; [exact Hi|].
  exact (dac_output_below_reference_b64 "1111" 0.1 Hb Lo Hi).
Defined.

(** X16.  On binary64, for every finite reference voltage
    [V_ref >= 2^-1018], the DAC is strictly monotone: a code of smaller
    unsigned value gives a strictly smaller voltage. *)
Theorem dac_output_strictly_monotone_b64 (b b' : string) (V_ref : float) :
  valid_code b -> valid_code b' ->
  (0x1p-1018 <=? V_ref)%float = true -> (V_ref <? infinity)%float = true ->
  (code_value b < code_value b')%Z ->
  exists v v',
    B64.dac_output b V_ref = Ok v /\ B64.dac_output b' V_ref = Ok v' /\
    (v <? v')%float = true.
Proof.
  intros Hb Hb' Lo Hi Lt.
  destruct (reference_normal V_ref Lo Hi) as (PV & L & U).
  destruct (dac_b64_approx b V_ref Hb PV L U) as (v & Hd & Av).
  destruct (dac_b64_approx b' V_ref Hb' PV L U) as (v' & Hd' & Av').
  exists v, v'. split; [exact Hd|]. split; [exact Hd'|].
  pose proof (code_value_range b Hb) as [K0 _].
  pose proof (code_value_range b' Hb') as [_ K15].
  exact (dac_b64_lt V_ref v v' _ _ PV K0 Lt K15 Av Av').
Qed.

Lemma dac_output_strictly_monotone_b64_witness :
  valid_code "0101" /\ valid_code "0110" /\
  (0x1p-1018 <=? 0.1)%float = true /\ (0.1 <? infinity)%float = true /\
  (code_value "0101" < code_value "0110")%Z /\
  exists v v',
    B64.dac_output "0101" 0.1 = Ok v /\ B64.dac_output "0110" 0.1 = Ok v' /\
    (v <? v')%float = true.
Proof.
  assert (Hb : valid_code "0101") by valid_code_tac.
  assert (Hb' : valid_code "0110") by valid_code_tac.
  assert (Lo : (0x1p-1018 <=? 0.1)%float = true) by reflexivity.
  assert (Hi : (0.1 <? infinity)%float = true) by reflexivity.
  assert (Lt : (code_value "0101" < code_value "0110")%Z) by reflexivity.
  split; [exact Hb|]. split; [exact Hb'|]. split; [exact Lo|].
  split; [exact Hi|]. split; [exact Lt|].
  exact (dac_output_strictly_monotone_b64 "0101" "0110" 0.1 Hb Hb' Lo Hi Lt).
Defined.

(** X7.  On binary64, for every finite reference voltage
    [V_ref >= 2^-1018], the DAC is injective on valid codes: two codes with
    the same output are the same code. *)
Theorem dac_output_injective_b64 (b b' : string) (V_ref : float) :
  valid_code b -> valid_code b' ->
  (0x1p-1018 <=? V_ref)%float = true -> (V_ref <? infinity)%float = true ->
  B64.dac_output b V_ref = B64.dac_output b' V_ref -> b = b'.
Proof.
  intros Hb Hb' Lo Hi E.
  destruct (reference_normal V_ref Lo Hi) as (PV & L & U).
  destruct (dac_b64_approx b V_ref Hb PV L U) as (v & Hd & Av).
  destruct (dac_b64_approx b' V_ref Hb' PV L U) as (v' & Hd' & Av').
  rewrite Hd, Hd' in E. injection E as E. subst v'.
  pose proof (code_value_range b Hb) as [K0 K15].
  pose proof (code_value_range b' Hb') as [K0' K15'].
  pose proof (ltb_irrefl v) as Irr.
  destruct (Z.lt_trichotomy (code_value b) (code_value b')) as [Lt | [Eq | Gt]].
  - rewrite (dac_b64_lt V_ref v v _ _ PV K0 Lt K15' Av Av') in Irr. discriminate.
  - rewrite <- (format_code_value b Hb), <- (format_code_value b' Hb'), Eq.
    reflexivity.
  - rewrite (dac_b64_lt V_ref v v _ _ PV K0' Gt K15 Av' Av) in Irr. discriminate.
Qed.

Lemma dac_output_injective_b64_witness :
  valid_code "0110" /\ valid_code "0110" /\
  (0x1p-1018 <=? 0.1)%float = true /\ (0.1 <? infinity)%float = true /\
  B64.dac_output "0110" 0.1 = B64.dac_output "0110" 0.1 /\ "0110" = "0110".
Proof.
  assert (Hb : valid_code "0110") by valid_code_tac.
  assert (Lo : (0x1p-1018 <=? 0.1)%float = true) by reflexivity.
  assert (Hi : (0.1 <? infinity)%float = true) by reflexivity.
  assert (E : B64.dac_output "0110" 0.1 = B64.dac_output "0110" 0.1) by reflexivity.
  split; [exact Hb|]. split; [exact Hb|]. split; [exact Lo|].
  split; [exact Hi|]. split; [exact E|].
  exact (dac_output_injective_b64 "0110" "0110" 0.1 Hb Hb Lo Hi E).
Defined.

(** ** The ADC *)

(** X14.  On binary64, for every finite reference voltage
    [V_ref >= 2^-1018], the full-scale input [V_in = V_ref] is converted to
    the five-character string "10000", not to a 4-bit code. *)
Theorem adc_output_full_scale_b64 (V_ref : float) :
  (0x1p-1018 <=? V_ref)%float = true -> (V_ref <? infinity)%float = true ->
  B64.adc_output V_ref V_ref = Ok "10000".
Proof.
  intros Lo Hi.
  destruct (reference_normal V_ref Lo Hi) as (PV & L & U).
  pose proof eps_value as Ev.
  assert (Pa : 0 < to_Q V_ref) by (apply pos_finite_pos; exact PV).
  assert (Av : approx (7 * eps) V_ref (to_Q V_ref * inject_Z 16 / 16)).
  { right. split; [exact PV|]. split; [apply normal_above_min; exact L|].
    change (inject_Z 16) with 16.
    assert (E : to_Q V_ref * 16 / 16 == to_Q V_ref) by field.
    rewrite E, Ev.
    assert (E0 : to_Q V_ref * (1 - 7 * (1 # 4503599627370496))
                 == to_Q V_ref - to_Q V_ref * (7 # 4503599627370496)) by ring.
    assert (E1 : to_Q V_ref * (1 + 7 * (1 # 4503599627370496))
                 == to_Q V_ref + to_Q V_ref * (7 # 4503599627370496)) by ring.
    split; lra. }
  exact (adc_b64_on_grid V_ref V_ref 16 PV L U ltac:(lia) Av (ltb_irrefl V_ref)).
Qed.

Lemma adc_output_full_scale_b64_witness :
  (0x1p-1018 <=? 1.6)%float = true /\ (1.6 <? infinity)%float = true /\
  B64.adc_output 1.6 1.6 = Ok "10000".
Proof.
  assert (Lo : (0x1p-1018 <=? 1.6)%float = true) by reflexivity.
  assert (Hi : (1.6 <? infinity)%float = true) by reflexivity.
  split; [exact Lo|]. split; [exact Hi|].
  exact (adc_output_full_scale_b64 1.6 Lo Hi).
Defined.

(** X17.  On binary64 too, whatever the two floats are, a string returned
    by [adc_output] has at least four characters. *)
Theorem adc_output_length_b64 (V_in V_ref : float) (s : string) :
  B64.adc_output V_in V_ref = Ok s -> (4 <= String.length s)%nat.
Proof.
  unfold B64.adc_output.
  destruct (B64.gt V_in V_ref); [discriminate|].
  rewrite div_by_16. cbn [bind]. unfold B64.div.
  destruct (PrimFloat.eqb (V_ref / B64.of_int 16) (B64.of_int 0));
    [discriminate|]. cbn [bind].
  destruct (B64.round (V_in / (V_ref / B64.of_int 16))) as [n|e];
    [|discriminate]. cbn [bind].
  intros H. injection H as <-. apply format_04b_length.
Qed.

Lemma adc_output_length_b64_witness :
  B64.adc_output (-40) 5 = Ok "-10000000" /\
  (4 <= String.length "-10000000")%nat.
Proof.
  assert (H : B64.adc_output (-40) 5 = Ok "-10000000") by reflexivity.
  split; [exact H | exact (adc_output_length_b64 (-40) 5 _ H)].
Defined.
